(** * pointToPointPlanarInterpolation

    A shallow embedding of
    [src/meshTools/triSurface/triSurfaceTools/pointToPointPlanarInterpolation.C]
    (OpenFOAM 2.2.x): the derivation of the planar reference frame
    ([calcCoordinateSystem]), the construction of the interpolation weights
    ([calcWeights] and the two constructors) and the search of the bracketing
    time samples ([findTime]).

    The code is written once, over an interface of scalar operations, and is
    read at three instances: the real numbers, for the code that only
    compares scalars; the real numbers with an undefined value, for the code
    that divides; and the IEEE binary64 numbers of the machine, on which the
    code can be run.  The first two are exact arithmetic: what is proved
    through them holds of the code up to the rounding, overflow and
    underflow of binary64, and the properties say so; where a run in
    binary64 ends otherwise, the run is given. *)

From Stdlib Require Import ZArith List Bool Lia Sorted.
From Stdlib Require String.
From Stdlib Require Import Reals Lra Psatz.
From Stdlib Require Import PrimFloat.
Import ListNotations.

Set Implicit Arguments.

(** ** Scalars *)

(** The operations of [Foam::scalar] the file uses: arithmetic, [sqrt]
    (through [mag]) and the comparison [>]. *)
Class ScalarOps (S : Type) : Type := {
  szero : S;
  sadd : S -> S -> S;
  ssub : S -> S -> S;
  smul : S -> S -> S;
  sdiv : S -> S -> S;
  sneg : S -> S;
  ssqrt : S -> S;
  sgtb : S -> S -> bool;   (* a > b *)
  sltb : S -> S -> bool    (* a < b *)
}.

(** Reals: the comparison is decided by [Rlt_dec]. *)
Definition Rgtb (a b : R) : bool := if Rlt_dec b a then true else false.
Definition Rltb (a b : R) : bool := if Rlt_dec a b then true else false.

#[export] Instance Rops : ScalarOps R := {|
  szero := 0%R;
  sadd := Rplus;
  ssub := Rminus;
  smul := Rmult;
  sdiv := Rdiv;
  sneg := Ropp;
  ssqrt := R_sqrt.sqrt;
  sgtb := Rgtb;
  sltb := Rltb
|}.

(** Reals with an undefined value: exact arithmetic where the operation
    has a real result, and [None] where it has none (a quotient by zero,
    the root of a negative number).  [None] behaves as the NaN of a
    [double]: every operation on it gives [None] and every comparison
    with it is false.  The code at hand only divides a vector by its own
    magnitude, so that in exact arithmetic its quotients by zero are 0/0.
    This is exact arithmetic: no result is rounded, none overflows to an
    infinity and none underflows to zero, as results in binary64 do. *)
Abbreviation XR := (option R).

Definition xlift2 (f : R -> R -> R) (a b : XR) : XR :=
  match a, b with
  | Some x, Some y => Some (f x y)
  | _, _ => None
  end.

Definition xdiv (a b : XR) : XR :=
  match a, b with
  | Some x, Some y => if Req_dec_T y 0 then None else Some (x / y)%R
  | _, _ => None
  end.

Definition xsqrt (a : XR) : XR :=
  match a with
  | Some x => if Rlt_dec x 0 then None else Some (R_sqrt.sqrt x)
  | None => None
  end.

Definition xcmp (c : R -> R -> bool) (a b : XR) : bool :=
  match a, b with
  | Some x, Some y => c x y
  | _, _ => false
  end.

#[export] Instance XRops : ScalarOps XR := {|
  szero := Some 0%R;
  sadd := xlift2 Rplus;
  ssub := xlift2 Rminus;
  smul := xlift2 Rmult;
  sdiv := xdiv;
  sneg := option_map Ropp;
  ssqrt := xsqrt;
  sgtb := xcmp Rgtb;
  sltb := xcmp Rltb
|}.

(** IEEE binary64, the [doubleScalar] of a double-precision build. *)
Definition Fops : ScalarOps float := {|
  szero := 0%float;
  sadd := PrimFloat.add;
  ssub := PrimFloat.sub;
  smul := PrimFloat.mul;
  sdiv := PrimFloat.div;
  sneg := PrimFloat.opp;
  ssqrt := PrimFloat.sqrt;
  sgtb := fun a b => PrimFloat.ltb b a;
  sltb := fun a b => PrimFloat.ltb a b
|}.

(** ** Labels and lists *)

(** [l[i]] for a [label] (a signed integer) [i]: [None] outside the list,
    where [UList::operator[]] reads memory the list does not own. *)
Definition at_label (A : Type) (l : list A) (i : Z) : option A :=
  if (i <? 0)%Z then None else nth_error l (Z.to_nat i).

(** The size of a list, as a [label]. *)
Definition size (A : Type) (l : list A) : Z := Z.of_nat (length l).

(** The largest [label] of a build with 32-bit labels ([labelMax] in
    OpenFOAM's label header, which is not among the sources). *)
Definition labelMax : Z := 2147483647.

(** ** findTime *)

(** [Foam::instant]: a scalar value and its name. *)
Record instant (S : Type) : Type := mkInstant { value : S; name : String.string }.

Section FindTime.
Context {S : Type} {ops : ScalarOps S}.

(** The loop
    [for (label i = startSampleTime+1; i < times.size(); i++)]
    from index [i] on; [rest] holds [times[i]], [times[i+1]], ... and the
    result is the final [lo]. *)
Fixpoint findTime_loop (timeVal : S) (rest : list (instant S)) (i lo : Z) : Z :=
  match rest with
  | [] => lo
  | t :: rest' =>
      if sgtb (value t) timeVal then lo                 (* break *)
      else findTime_loop timeVal rest' (i + 1) i        (* lo = i *)
  end.

(** [findTime(times, startSampleTime, timeVal, lo, hi)]: the returned
    [bool] with the final values of the reference arguments [lo] and [hi].
    With [startSampleTime < -1] the loop starts at a negative index and
    reads outside [times]: [None].  Labels are read as integers: the
    overflow of [startSampleTime+1] at [startSampleTime = labelMax] is not
    in the model, which is the code for hints below [labelMax].  The
    printing under [debug], which reads [times[lo]] and [times[hi]], is
    left out: [debug] is 0 unless it is switched on. *)
Definition findTime (times : list (instant S)) (startSampleTime : Z) (timeVal : S)
  : option (bool * Z * Z) :=
  if (startSampleTime + 1 <? 0)%Z then None
  else
    let lo := findTime_loop timeVal
                (skipn (Z.to_nat (startSampleTime + 1)) times)
                (startSampleTime + 1) startSampleTime in
    let hi := (-1)%Z in
    if (lo =? -1)%Z then Some (false, lo, hi)
    else
      let hi := if (lo <? size times - 1)%Z then (lo + 1)%Z else hi in
      Some (true, lo, hi).

End FindTime.

(** ** Vectors *)

(** [Foam::vector] with the operators the file uses: [-], [&] (inner
    product), [^] (cross product), [scalar * vector], [vector / scalar] and
    [mag]. *)
Record vector (S : Type) : Type := mkVector { vx : S; vy : S; vz : S }.

Section Vectors.
Context {S : Type} {ops : ScalarOps S}.

Definition vadd (a b : vector S) : vector S :=
  mkVector (sadd (vx a) (vx b)) (sadd (vy a) (vy b)) (sadd (vz a) (vz b)).

Definition vsub (a b : vector S) : vector S :=
  mkVector (ssub (vx a) (vx b)) (ssub (vy a) (vy b)) (ssub (vz a) (vz b)).

Definition vscale (s : S) (a : vector S) : vector S :=
  mkVector (smul s (vx a)) (smul s (vy a)) (smul s (vz a)).

Definition vdivs (a : vector S) (s : S) : vector S :=
  mkVector (sdiv (vx a) s) (sdiv (vy a) s) (sdiv (vz a) s).

Definition dot (a b : vector S) : S :=
  sadd (sadd (smul (vx a) (vx b)) (smul (vy a) (vy b))) (smul (vz a) (vz b)).

Definition cross (a b : vector S) : vector S :=
  mkVector (ssub (smul (vy a) (vz b)) (smul (vz a) (vy b)))
           (ssub (smul (vz a) (vx b)) (smul (vx a) (vz b)))
           (ssub (smul (vx a) (vy b)) (smul (vy a) (vx b))).

Definition magSqr (a : vector S) : S :=
  sadd (sadd (smul (vx a) (vx a)) (smul (vy a) (vy a))) (smul (vz a) (vz a)).

Definition mag (a : vector S) : S := ssqrt (magSqr a).

End Vectors.

(** ** calcCoordinateSystem *)

(** The two [FatalErrorIn ... exit(FatalError)] of [calcCoordinateSystem]:
    "Only n provided. Need at least three non-colinear points to be able to
    interpolate." and "Cannot find points that make valid normal. ... Need
    at least three points which are not in a line." *)
Inductive fatal : Type :=
  | InsufficientPointsError
  | DegenerateGeometryError.

(** What a call comes to: a value, a fatal error, or [Undefined] where the
    code reads a list outside its bounds or a variable it never assigned:
    there the language gives the run no meaning, and the model does not say
    what a machine does. *)
Inductive result (A : Type) : Type :=
  | Ok (a : A)
  | FatalError (e : fatal)
  | Undefined.
Arguments FatalError {A} e.
Arguments Undefined {A}.

(** The arguments [calcCoordinateSystem] gives to the constructor
    [coordinateSystem("reference", p0, n, e1)]: origin, normal and 0-axis. *)
Record coordinateSystem (S : Type) : Type := mkCoordinateSystem {
  origin : vector S;
  normal : vector S;
  axis : vector S
}.

(** [(i, l[0]); (i+1, l[1]); ...]: what a loop [for (label k = i; ...; k++)]
    over the entries of [l] sees. *)
Fixpoint enum_from (A : Type) (i : Z) (l : list A) : list (Z * A) :=
  match l with
  | [] => []
  | a :: l' => (i, a) :: enum_from (i + 1) l'
  end.

Section CalcCoordinateSystem.
Context {S : Type} {ops : ScalarOps S}.

(** The constant [GREAT] of OpenFOAM's scalar header, which is not among
    the sources: a parameter. *)
Variable GREAT : S.

(** One turn of the first loop ("Find furthest away point") on
    [(e1, index1, maxDist)]; [e1] is declared without a value, [None]. *)
Definition furthest_step (p0 : vector S) (st : option (vector S) * Z * S)
    (ip : Z * vector S) : option (vector S) * Z * S :=
  let '(e1, index1, maxDist) := st in
  let (i, pi) := ip in
  let d := vsub pi p0 in
  let magD := mag d in
  if sgtb magD maxDist then (Some (vdivs d magD), i, magD) else st.

Definition furthest_loop (p0 : vector S) (points : list (vector S))
  : option (vector S) * Z * S :=
  fold_left (furthest_step p0) (enum_from 1 (tl points)) (None, (-1)%Z, sneg GREAT).

(** The vector [e2] of the second loop: [p2 - p0] less its component
    along [e1]. *)
Definition offLine (p0 e1 p2 : vector S) : vector S :=
  let e2 := vsub p2 p0 in
  vsub e2 (vscale (dot e2 e1) e1).

(** One turn of the second loop ("Find point that is furthest away from
    line p0-p1") on [(index2, maxDist)]. *)
Definition offLine_step (p0 e1 : vector S) (index1 : Z) (st : Z * S)
    (ip : Z * vector S) : Z * S :=
  let (index2, maxDist) := st in
  let (i, p2) := ip in
  if negb (i =? index1)%Z then
    let magE2 := mag (offLine p0 e1 p2) in
    if sgtb magE2 maxDist then (i, magE2) else st
  else st.

Definition offLine_loop (p0 e1 : vector S) (index1 : Z) (points : list (vector S))
  : Z * S :=
  fold_left (offLine_step p0 e1 index1) (enum_from 1 (tl points)) ((-1)%Z, sneg GREAT).

(** [calcCoordinateSystem(points)].  The second loop reads [e1]; when the
    first loop has assigned nothing, [e1] is still without a value and
    [index1] is not an index of [points]: [Undefined]. *)
Definition calcCoordinateSystem (points : list (vector S))
  : result (coordinateSystem S) :=
  if (size points <? 3)%Z then FatalError InsufficientPointsError
  else
    match at_label points 0 with
    | None => Undefined
    | Some p0 =>
        let '(e1, index1, _) := furthest_loop p0 points in
        match at_label points index1, e1 with            (* p1, e1 *)
        | Some p1, Some e1 =>
            let (index2, _) := offLine_loop p0 e1 index1 points in
            if (index2 =? -1)%Z then FatalError DegenerateGeometryError
            else
              match at_label points index2 with
              | None => Undefined
              | Some p2 =>
                  let n := cross e1 (vsub p2 p0) in
                  let n := vdivs n (mag n) in
                  Ok (mkCoordinateSystem p0 n e1)
              end
        | _, _ => Undefined
        end
    end.

(** The function from its second loop on (the lines after
    [const point& p1 = points[index1]], which only binds a name), run on
    the [p0], [e1] and [index1] the first loop has left: the second loop,
    the test [index2 == -1] and the normal.  [e1] is whatever the variable
    holds, assigned or not. *)
Definition secondLoop_on (p0 e1 : vector S) (index1 : Z) (points : list (vector S))
  : result (coordinateSystem S) :=
  let (index2, _) := offLine_loop p0 e1 index1 points in
  if (index2 =? -1)%Z then FatalError DegenerateGeometryError
  else
    match at_label points index2 with
    | None => Undefined
    | Some p2 =>
        let n := cross e1 (vsub p2 p0) in
        let n := vdivs n (mag n) in
        Ok (mkCoordinateSystem p0 n e1)
    end.

End CalcCoordinateSystem.

(** ** calcWeights and the constructors *)

(** [Foam::vector2D]. *)
Definition vector2D (S : Type) : Type := (S * S)%type.

(** [localVertices2D[i][0] = localVertices[i][0]] and the same for [1]. *)
Definition to2D (S : Type) (v : vector S) : vector2D S := (vx v, vy v).

(** Modelled from the spec: the [Triangulation] of the data model, a "2D
    vertex list + triangle index triples"; the class [triSurface] is not
    among the sources. *)
Record triSurface (S : Type) : Type := mkTriSurface {
  surfPoints : list (vector2D S);
  surfFaces : list (Z * Z * Z)
}.

(** What [calcWeights] calls and the sources do not hold, as parameters:
    [coordinateSystem::localPosition]; the corners and the midpoint of
    [boundBox(points, true)]; the class [Random], whose constructor seeds
    the generator of the process and whose [position] draws from it, with
    [rndState] the state of that generator; [triSurfaceTools::delaunay2D];
    and what [triSurfaceTools::calcInterpolationWeights] stores for a
    point that no triangle contains, which the spec leaves open.  The
    second argument of [boundBox(points, true)] asks for the box to be
    reduced over the processes of a parallel run; the box is here a
    function of the vertices of this process alone, as in a serial run,
    and what other processes hold is not in the model. *)
Class Collaborators (S : Type) : Type := {
  localPosition : coordinateSystem S -> list (vector S) -> list (vector S);
  boundBox_min : list (vector S) -> vector S;
  boundBox_max : list (vector S) -> vector S;
  boundBox_midpoint : list (vector S) -> vector S;
  rndState : Type;
  Random_seed : Z -> rndState;
  Random_position : rndState -> vector S -> vector S -> vector S * rndState;
  delaunay2D : list (vector2D S) -> triSurface S;
  outsideWeights : triSurface S -> vector2D S -> (Z * Z * Z) * (S * S * S)
}.

(** The data members of [pointToPointPlanarInterpolation]. *)
Record engine (S : Type) : Type := mkEngine {
  perturb_ : S;
  referenceCS_ : coordinateSystem S;
  nPoints_ : Z;
  nearestVertex_ : list (Z * Z * Z);
  nearestVertexWeight_ : list (S * S * S)
}.

Section CalcWeights.
Context {S : Type} {ops : ScalarOps S} {env : Collaborators S}.
Variable GREAT : S.

(** Modelled from the spec: twice the signed area of the triangle
    [a], [b], [c], from which the "linear (barycentric) interpolation
    weights" are the ratios. *)
Definition area2 (a b c : vector2D S) : S :=
  ssub (smul (ssub (fst b) (fst a)) (ssub (snd c) (snd a)))
       (smul (ssub (fst c) (fst a)) (ssub (snd b) (snd a))).

(** Modelled from the spec: the vertices of a triangle of the
    triangulation, when its three labels are in the vertex list. *)
Definition faceVertices (s : triSurface S) (f : Z * Z * Z)
  : option (vector2D S * vector2D S * vector2D S) :=
  let '(i, j, k) := f in
  match at_label (surfPoints s) i, at_label (surfPoints s) j,
        at_label (surfPoints s) k with
  | Some a, Some b, Some c => Some (a, b, c)
  | _, _, _ => None
  end.

(** Modelled from the spec: "the containing triangle" of a point: the
    triangle has an area, and none of the three triangles the point makes
    with its sides is turned the other way. *)
Definition contains (s : triSurface S) (p : vector2D S) (f : Z * Z * Z) : bool :=
  match faceVertices s f with
  | Some (a, b, c) =>
      let A := area2 a b c in
      let A1 := area2 p b c in
      let A2 := area2 a p c in
      let A3 := area2 a b p in
      (sgtb A szero && negb (sltb A1 szero) && negb (sltb A2 szero)
         && negb (sltb A3 szero))
      || (sltb A szero && negb (sgtb A1 szero) && negb (sgtb A2 szero)
            && negb (sgtb A3 szero))
  | None => false
  end.

(** Modelled from the spec: the "linear (barycentric) interpolation
    weights against that triangle's three vertices". *)
Definition barycentric (a b c p : vector2D S) : S * S * S :=
  let A := area2 a b c in
  (sdiv (area2 p b c) A, sdiv (area2 a p c) A, sdiv (area2 a b p) A).

(** Modelled from the spec: the [WeightEntry] of one destination point:
    "locate the containing triangle (or nearest triangle/vertex if outside
    the convex hull) and compute linear (barycentric) interpolation
    weights", stored with the labels of the triangle's vertices. *)
Definition weightEntry (s : triSurface S) (p : vector2D S)
  : (Z * Z * Z) * (S * S * S) :=
  match find (contains s p) (surfFaces s) with
  | Some f =>
      match faceVertices s f with
      | Some (a, b, c) => (f, barycentric a b c p)
      | None => outsideWeights s p
      end
  | None => outsideWeights s p
  end.

(** Modelled from the spec: [triSurfaceTools::calcInterpolationWeights],
    which is not among the sources: one [WeightEntry] for each
    destination point, as the lists [nearestVertex_] and
    [nearestVertexWeight_]. *)
Definition calcInterpolationWeights (s : triSurface S) (samplePts : list (vector S))
  : list (Z * Z * Z) * list (S * S * S) :=
  let entries := map (fun p => weightEntry s (to2D p)) samplePts in
  (map fst entries, map snd entries).

(** The loop [forAll(localVertices, i)] that moves every vertex by
    [perturb_*(rndGen.position(bb.min(), bb.max()) - bbMid)], drawing from
    the generator in turn. *)
Fixpoint perturbVertices (perturb : S) (bbMin bbMax bbMid : vector S)
    (localVertices : list (vector S)) (rndGen : rndState)
  : list (vector S) * rndState :=
  match localVertices with
  | [] => ([], rndGen)
  | v :: rest =>
      let (r, rndGen1) := Random_position rndGen bbMin bbMax in
      let v' := vadd v (vscale perturb (vsub r bbMid)) in
      let (rest', rndGen2) := perturbVertices perturb bbMin bbMax bbMid rest rndGen1 in
      (v' :: rest', rndGen2)
  end.

(** The first half of [calcWeights]: the local vertices after the
    perturbation, and the generator after it.  [Random rndGen(123456)]
    seeds the generator of the process, whatever state [g] it was in. *)
Definition perturbedVertices (perturb : S) (referenceCS : coordinateSystem S)
    (sourcePoints : list (vector S)) (g : rndState)
  : list (vector S) * rndState :=
  let localVertices := localPosition referenceCS sourcePoints in
  let bbMin := boundBox_min localVertices in
  let bbMax := boundBox_max localVertices in
  let bbMid := boundBox_midpoint localVertices in
  let rndGen := Random_seed 123456 in
  perturbVertices perturb bbMin bbMax bbMid localVertices rndGen.

(** [calcWeights(sourcePoints, destPoints)]: the values it gives to
    [nearestVertex_] and [nearestVertexWeight_], and the generator of the
    process after the call. *)
Definition calcWeights (perturb : S) (referenceCS : coordinateSystem S)
    (sourcePoints destPoints : list (vector S)) (g : rndState)
  : (list (Z * Z * Z) * list (S * S * S)) * rndState :=
  let (localVertices, g') := perturbedVertices perturb referenceCS sourcePoints g in
  let localVertices2D := map (@to2D S) localVertices in
  let s := delaunay2D localVertices2D in
  let localFaceCentres := localPosition referenceCS destPoints in
  (calcInterpolationWeights s localFaceCentres, g').

(** The constructor from [(sourcePoints, destPoints, perturb)]: the member
    initialisers derive the frame, then the body calls [calcWeights]. *)
Definition construct (sourcePoints destPoints : list (vector S)) (perturb : S)
    (g : rndState) : result (engine S) * rndState :=
  match calcCoordinateSystem GREAT sourcePoints with
  | Ok referenceCS =>
      let (w, g') := calcWeights perturb referenceCS sourcePoints destPoints g in
      (Ok (mkEngine perturb referenceCS (size sourcePoints) (fst w) (snd w)), g')
  | FatalError e => (FatalError e, g)
  | Undefined => (Undefined, g)
  end.

(** The constructor from [(referenceCS, sourcePoints, destPoints, perturb)]. *)
Definition construct_given (referenceCS : coordinateSystem S)
    (sourcePoints destPoints : list (vector S)) (perturb : S)
    (g : rndState) : result (engine S) * rndState :=
  let (w, g') := calcWeights perturb referenceCS sourcePoints destPoints g in
  (Ok (mkEngine perturb referenceCS (size sourcePoints) (fst w) (snd w)), g').

End CalcWeights.

(** ** timeNames *)

(** [l[i] = a] for a label [i]: the list with entry [i] replaced, [None]
    when [i] is outside the list. *)
Definition set_label (A : Type) (l : list A) (i : Z) (a : A) : option (list A) :=
  if ((i <? 0) || (size l <=? i))%Z then None
  else Some (firstn (Z.to_nat i) l ++ a :: skipn (Datatypes.S (Z.to_nat i)) l).

(** One turn of [forAll(times, i)]: [names[i] = times[i].name()]. *)
Definition timeNames_step (S : Type) (names : option (list String.string))
    (it : Z * instant S) : option (list String.string) :=
  match names with
  | Some ns => set_label ns (fst it) (name (snd it))
  | None => None
  end.

(** [timeNames(times)]: [wordList names(times.size())], a list of empty
    words, filled entry by entry; [None] if an entry were written outside
    the list. *)
Definition timeNames (S : Type) (times : list (instant S))
  : option (list String.string) :=
  fold_left (@timeNames_step S) (enum_from 0 times)
            (Some (repeat String.EmptyString (length times))).

(** ** Notions the properties are stated with *)

(** A time series in ascending (non-decreasing) order of its values. *)
Definition ascending (times : list (instant R)) : Prop :=
  StronglySorted Rle (map (@value R) times).

(** The value of [times[i]], when [i] is an index of [times]. *)
Definition value_at (S : Type) (times : list (instant S)) (i : Z) : option S :=
  option_map (@value S) (at_label times i).

(** A series of unnamed instants with the given values. *)
Definition series (S : Type) (l : list S) : list (instant S) :=
  map (fun v => mkInstant v String.EmptyString) l.

(** A vector of reals among the vectors of reals with an undefined value,
    and the vector no component of which is defined. *)
Definition inj (v : vector R) : vector XR :=
  mkVector (Some (vx v)) (Some (vy v)) (Some (vz v)).

Definition nanv : vector XR := mkVector None None None.

(** The distance of [p] from [p0], and the distance of [p] from the line
    through [p0] along [e1]. *)
Definition dist (p0 p : vector R) : R := mag (vsub p p0).

Definition off (p0 e1 p : vector R) : R := mag (offLine p0 e1 p).

(** The offset [w] after removing its component along the unit vector
    [e], on the coordinates: [w - (w . e) e].  It is orthogonal to [e], and
    its length is the distance of the point at offset [w] from the line
    along [e]: the least length of [w - t e] over all [t]. *)
Definition without_component (w e : vector R) : vector R :=
  let c := (vx w * vx e + vy w * vy e + vz w * vz e)%R in
  mkVector (vx w - c * vx e)%R (vy w - c * vy e)%R (vz w - c * vz e)%R.

(** [v / mag(v)]. *)
Definition normalised {S : Type} {ops : ScalarOps S} (v : vector S) : vector S :=
  vdivs v (mag v).

(** The points of [P] lie on one line. *)
Definition colinear (P : list (vector R)) : Prop :=
  exists a u : vector R,
    forall p, In p P -> exists t : R, p = vadd a (vscale t u).

(** Some point of [P] is not at [P[0]]. *)
Definition spread (P : list (vector R)) : Prop :=
  exists q, In q P /\ at_label P 0 <> Some q.

(** [GREAT] in a double-precision build. *)
Definition GREAT_double : R := 1e15.
Definition GREAT_float : float := 1e15.

(** Sample point sets: three points on the x axis, three points at the
    origin, and three points that span a plane; over the reals and over
    binary64. *)
Definition line_points : list (vector R) :=
  [mkVector 0 0 0; mkVector 1 0 0; mkVector 2 0 0]%R.
Definition plane_points : list (vector R) :=
  [mkVector 0 0 0; mkVector 1 0 0; mkVector 0 1 0]%R.
Definition line_points_float : list (vector float) :=
  [mkVector 0 0 0; mkVector 1 0 0; mkVector 2 0 0]%float.




(** The sample destination point (1/4, 1/4, 0) and a frame to give to the
    second constructor. *)
Definition sample_dest : list (vector R) := [mkVector (1 / 4) (1 / 4) 0]%R.

Definition sample_frame : coordinateSystem R :=
  mkCoordinateSystem (mkVector 0 0 0)%R (mkVector 0 0 1)%R (mkVector 1 0 0)%R.

(** Collaborators to run an example with: the frame is the global one, the
    box is the unit square, the generator counts its draws and always
    draws the lower corner, and the triangulation of three vertices is the
    triangle they make. *)
Definition sample_env : Collaborators R := {|
  localPosition := fun _ pts => pts;
  boundBox_min := fun _ => mkVector 0 0 0;
  boundBox_max := fun _ => mkVector 1 1 0;
  boundBox_midpoint := fun _ => mkVector (1 / 2) (1 / 2) 0;
  rndState := nat;
  Random_seed := fun seed => Z.to_nat seed;
  Random_position := fun g a _ => (a, Datatypes.S g);
  delaunay2D := fun verts => mkTriSurface verts [(0, 1, 2)%Z];
  outsideWeights := fun _ _ => ((0, -1, -1)%Z, (1, 0, 0))
|}%R.


(** The points of [P] lie in one plane: the plane through [a] with the
    normal [n0], which is not the null vector. *)
Definition coplanar (P : list (vector R)) : Prop :=
  exists a n0 : vector R,
    (vx n0 <> 0 \/ vy n0 <> 0 \/ vz n0 <> 0)%R
    /\ forall p, In p P -> dot n0 (vsub p a) = 0%R.

(** The points of [P], each moved by [t]. *)
Definition translate (t : vector R) (P : list (vector R)) : list (vector R) :=
  map (fun p => vadd p t) P.

(** Four points of the plane [z = 0], the first two at the same place. *)
Definition square_points : list (vector R) :=
  [mkVector 0 0 0; mkVector 0 0 0; mkVector 1 0 0; mkVector 0 1 0; mkVector 1 1 0]%R.

(** Three points of which the first has no defined x coordinate; over
    the reals with an undefined value and over binary64. *)
Definition undefined_origin_points : list (vector XR) :=
  [mkVector None (Some 0%R) (Some 0%R); inj (mkVector 1 0 0)%R;
   inj (mkVector 0 1 0)%R].
Definition nan_origin_points_float : list (vector float) :=
  [mkVector nan 0 0; mkVector 1 0 0; mkVector 0 1 0]%float.

(** [a] is at most [b] in every coordinate; [m] is midway between [a] and
    [b]; and [v'] is within [f] times half the box from [a] to [b] of [v],
    in every coordinate. *)
Definition vle (a b : vector R) : Prop :=
  (vx a <= vx b /\ vy a <= vy b /\ vz a <= vz b)%R.

Definition midway (a b m : vector R) : Prop :=
  (vx m = (vx a + vx b) / 2 /\ vy m = (vy a + vy b) / 2
   /\ vz m = (vz a + vz b) / 2)%R.

Definition moved_within (f : R) (a b v v' : vector R) : Prop :=
  (Rabs (vx v' - vx v) <= Rabs f * ((vx b - vx a) / 2)
   /\ Rabs (vy v' - vy v) <= Rabs f * ((vy b - vy a) / 2)
   /\ Rabs (vz v' - vz v) <= Rabs f * ((vz b - vz a) / 2))%R.

(** The points of [P], each scaled by [s] about the global origin. *)
Definition scale (s : R) (P : list (vector R)) : list (vector R) :=
  map (fun p => vscale s p) P.

(** Point sets on which binary64 differs from exact arithmetic: three
    points that span a plane with coordinates 2^600 (about 4e180), whose
    squares overflow; the same with coordinates 2^-600 (about 2e-181),
    whose squares underflow; three points of ordinary size of which the
    third, (0.515625, 15.984375 - 2^-49, 0), is one unit in the last place
    off the line through the first two; and three points on one line. *)
Definition huge_points_float : list (vector float) :=
  [mkVector 0 0 0; mkVector 0x1p+600 0 0; mkVector 0 0x1p+600 0]%float.


(** Two source points. *)
Definition two_points : list (vector R) :=
  [mkVector 0 0 0; mkVector 1 0 0]%R.

(** The series of the examples: values 0, 1, 2, 5. *)
Definition sample_times : list (instant R) := series [0; 1; 2; 5]%R.

(** * Properties *)

(** ** Comparisons of reals *)

Lemma Rgtb_true (a b : R) : (b < a)%R -> Rgtb a b = true.
Proof. intros H. unfold Rgtb. destruct (Rlt_dec b a); [reflexivity | contradiction]. Qed.

Lemma Rgtb_false (a b : R) : (a <= b)%R -> Rgtb a b = false.
Proof. intros H. unfold Rgtb. destruct (Rlt_dec b a); [lra | reflexivity]. Qed.

Lemma Rgtb_cases (a b : R) :
  (Rgtb a b = true /\ (b < a)%R) \/ (Rgtb a b = false /\ (a <= b)%R).
Proof.
  destruct (Rlt_dec b a) as [H | H].
  - left. split; [now apply Rgtb_true | exact H].
  - right. split; [apply Rgtb_false; lra | lra].
Qed.

(** ** Lists read with labels *)

Lemma at_label_Some (A : Type) (l : list A) (i : Z) (a : A) :
  at_label l i = Some a ->
  (0 <= i < size l)%Z /\ nth_error l (Z.to_nat i) = Some a.
Proof.
  unfold at_label, size. destruct (Z.ltb_spec i 0) as [Hi | Hi]; [discriminate |].
  intros H. split; [| exact H].
  assert (Hlt : (Z.to_nat i < length l)%nat) by (apply nth_error_Some; congruence).
  lia.
Qed.

Lemma at_label_nth (A : Type) (l : list A) (k : nat) :
  at_label l (Z.of_nat k) = nth_error l k.
Proof.
  unfold at_label. destruct (Z.ltb_spec (Z.of_nat k) 0) as [Hi | Hi]; [lia |].
  now rewrite Nat2Z.id.
Qed.

(** ** findTime: what the scan reads *)

Section FindTimeReads.
Context {S : Type} {ops : ScalarOps S}.

(** The scan only looks at the values of the instants it is given. *)
Lemma findTime_loop_values (timeVal : S) (rest rest' : list (instant S)) :
  map (@value S) rest = map (@value S) rest' ->
  forall i lo, findTime_loop timeVal rest i lo = findTime_loop timeVal rest' i lo.
Proof.
  revert rest'. induction rest as [| t rest IH]; intros [| t' rest'] Hmap i lo;
    simpl in Hmap; try discriminate; [reflexivity |].
  injection Hmap as Hv Hrest. simpl. rewrite Hv.
  destruct (sgtb (value t') timeVal); [reflexivity |].
  now apply IH.
Qed.

(** Two series of one length with the same values above [hint] have the
    same entries from [hint + 1] on. *)
Lemma skipn_values_above (times times' : list (instant S)) (hint : Z) :
  length times = length times' ->
  (forall i, (hint < i)%Z -> value_at times i = value_at times' i) ->
  (0 <= hint + 1)%Z ->
  map (@value S) (skipn (Z.to_nat (hint + 1)) times)
  = map (@value S) (skipn (Z.to_nat (hint + 1)) times').
Proof.
  intros Hlen Hagree Hh. apply nth_error_ext. intros k.
  rewrite !nth_error_map, !nth_error_skipn.
  specialize (Hagree (Z.of_nat (Z.to_nat (hint + 1) + k))).
  unfold value_at in Hagree. rewrite !at_label_nth in Hagree.
  apply Hagree. lia.
Qed.

Lemma findTime_values_above (times times' : list (instant S)) (hint : Z) (v : S) :
  length times = length times' ->
  (forall i, (hint < i)%Z -> value_at times i = value_at times' i) ->
  findTime times hint v = findTime times' hint v.
Proof.
  intros Hlen Hagree. unfold findTime.
  destruct (Z.ltb_spec (hint + 1) 0) as [Hh | Hh]; [reflexivity |].
  rewrite (findTime_loop_values v _ _ (skipn_values_above _ _ Hlen Hagree Hh)).
  unfold size. now rewrite Hlen.
Qed.

(** The scan never moves [lo] below where it started. *)
Lemma findTime_loop_ge (timeVal : S) (rest : list (instant S)) :
  forall i lo, (lo <= i)%Z -> (lo <= findTime_loop timeVal rest i lo)%Z.
Proof.
  induction rest as [| t rest IH]; intros i lo Hle; simpl; [lia |].
  destruct (sgtb (value t) timeVal); [lia |].
  specialize (IH (i + 1)%Z i). lia.
Qed.

Lemma findTime_lo_ge (times : list (instant S)) (hint : Z) (v : S)
    (found : bool) (lo hi : Z) :
  findTime times hint v = Some (found, lo, hi) -> (hint <= lo)%Z.
Proof.
  unfold findTime. destruct (Z.ltb_spec (hint + 1) 0) as [Hh | Hh]; [discriminate |].
  assert (Hge : (hint <= findTime_loop v (skipn (Z.to_nat (hint + 1)) times)
                              (hint + 1) hint)%Z)
    by (apply findTime_loop_ge; lia).
  destruct (_ =? -1)%Z; intros H; injection H as _ Hlo _; lia.
Qed.

End FindTimeReads.

(** C9.  [findTime] reads [times[i]] only for [i] strictly above the hint
    [startSampleTime]: two series of the same length whose values agree at
    every index above the hint give the same result.  Hence in a chain of
    calls, where the [lo] a call returns is the hint of the next one, that
    [lo] is at or above the earlier hint and the next call, whatever its
    query value, does not depend on any entry at or below that [lo]. *)
Theorem findTime_reads_above_hint (S : Type) (ops : ScalarOps S)
    (times times' : list (instant S)) (hint : Z) (v : S) :
  length times = length times' ->
  (forall i, (hint < i)%Z -> value_at times i = value_at times' i) ->
  findTime times hint v = findTime times' hint v
  /\ (forall found lo hi,
        findTime times hint v = Some (found, lo, hi) ->
        (hint <= lo)%Z
        /\ (forall (times'' : list (instant S)) (v2 : S),
              length times = length times'' ->
              (forall i, (lo < i)%Z -> value_at times i = value_at times'' i) ->
              findTime times lo v2 = findTime times'' lo v2)).
Proof.
  intros Hlen Hagree. split.
  - now apply findTime_values_above.
  - intros found lo hi Hfirst. split.
    + exact (findTime_lo_ge _ _ _ Hfirst).
    + intros times'' v2 Hlen'' Hagree''. now apply findTime_values_above.
Qed.

(** ** findTime: the bracket it returns *)

(** Where the scan stops: either at once, [lo] unchanged and the first
    entry (if any) above [v]; or on entry [k] of [rest], all entries up to
    [k] at most [v] and entry [k + 1] (if any) above [v]. *)
Lemma findTime_loop_spec (v : R) (rest : list (instant R)) :
  forall i lo,
    (findTime_loop v rest i lo = lo
     /\ forall t, nth_error rest 0 = Some t -> (v < value t)%R)
    \/ (exists k t,
          findTime_loop v rest i lo = (i + Z.of_nat k)%Z
          /\ nth_error rest k = Some t
          /\ (forall j tj, (j <= k)%nat -> nth_error rest j = Some tj ->
                           (value tj <= v)%R)
          /\ (forall t', nth_error rest (Datatypes.S k) = Some t' ->
                         (v < value t')%R)).
Proof.
  induction rest as [| t rest IH]; intros i lo.
  - left. split; [reflexivity | intros t H; discriminate].
  - simpl findTime_loop. change (sgtb (value t) v) with (Rgtb (value t) v).
    destruct (Rgtb_cases (value t) v) as [[E Hv] | [E Hv]]; rewrite E.
    + left. split; [reflexivity |]. intros t0 H. injection H as <-. exact Hv.
    + right. destruct (IH (i + 1)%Z i) as [[Er Hhead] | (k & tk & Er & Hk & Hle & Hnext)].
      * exists 0%nat, t. rewrite Er. repeat split.
        -- lia.
        -- intros j tj Hj Hnth. assert (j = 0%nat) by lia. subst j.
           injection Hnth as <-. exact Hv.
        -- intros t' Hnth. apply Hhead. exact Hnth.
      * exists (Datatypes.S k), tk. rewrite Er. repeat split.
        -- lia.
        -- exact Hk.
        -- intros [| j] tj Hj Hnth.
           ++ injection Hnth as <-. exact Hv.
           ++ apply (Hle j); [lia | exact Hnth].
        -- exact Hnext.
Qed.

(** In an ascending series the values grow with the index. *)
Lemma ascending_nth (times : list (instant R)) :
  ascending times ->
  forall i j ti tj, (i <= j)%nat ->
    nth_error times i = Some ti -> nth_error times j = Some tj ->
    (value ti <= value tj)%R.
Proof.
  unfold ascending. induction times as [| t times IH]; intros Hs i j ti tj Hij Hi Hj.
  - destruct i; discriminate.
  - simpl in Hs. apply StronglySorted_inv in Hs. destruct Hs as [Hs Hall].
    destruct i as [| i], j as [| j]; simpl in Hi, Hj.
    + injection Hi as <-. injection Hj as <-. lra.
    + injection Hi as <-. rewrite Forall_forall in Hall. apply Hall.
      apply in_map. eapply nth_error_In. exact Hj.
    + lia.
    + apply (IH Hs i j); [lia | exact Hi | exact Hj].
Qed.

(** The final [lo] of the scan over an ascending series: at or above the
    hint, every entry above it is above [v], and when it has moved, the
    entry at [lo] is at most [v]. *)
Lemma findTime_lo_spec (times : list (instant R)) (hint : Z) (v : R) :
  ascending times ->
  (0 <= hint + 1)%Z ->
  forall lo,
    findTime_loop v (skipn (Z.to_nat (hint + 1)) times) (hint + 1) hint = lo ->
    (hint <= lo)%Z
    /\ (lo = hint \/ exists t, at_label times lo = Some t /\ (value t <= v)%R)
    /\ (forall j t, (lo < j)%Z -> at_label times j = Some t -> (v < value t)%R).
Proof.
  intros Hasc Hh lo Elo.
  set (n := Z.to_nat (hint + 1)) in *.
  assert (Hsk : forall k, nth_error (skipn n times) k = nth_error times (n + k))
    by (intros k; apply nth_error_skipn).
  assert (Hup : forall m tm, nth_error times m = Some tm -> (v < value tm)%R ->
                  forall j t, (Z.of_nat m <= j)%Z -> at_label times j = Some t ->
                              (v < value t)%R).
  { intros m tm Hm Hv j t Hj Hjt. apply at_label_Some in Hjt.
    destruct Hjt as [Hjr Hjn].
    assert ((value tm <= value t)%R)
      by (apply (ascending_nth Hasc (i := m) (j := Z.to_nat j)); [lia | exact Hm | exact Hjn]).
    lra. }
  assert (Hend : forall m, nth_error times m = None ->
                  forall j t, (Z.of_nat m <= j)%Z -> at_label times j = Some t -> False).
  { intros m Hm j t Hj Hjt. apply at_label_Some in Hjt. destruct Hjt as [Hjr _].
    apply nth_error_None in Hm. unfold size in Hjr. lia. }
  destruct (findTime_loop_spec v (skipn n times) (hint + 1) hint)
    as [[Er Hhead] | (k & tk & Er & Hk & Hle & Hnext)]; rewrite Er in Elo; subst lo.
  - split; [lia |]. split; [now left |].
    intros j t Hj Hjt.
    destruct (nth_error times n) as [th |] eqn:Eh.
    + apply (Hup n th Eh) with (j := j); [| lia | exact Hjt].
      apply Hhead. rewrite Hsk, Nat.add_0_r. exact Eh.
    + exfalso. apply (Hend n Eh j t); [lia | exact Hjt].
  - rewrite Hsk in Hk. split; [lia |]. split.
    + right. exists tk. split.
      * replace (hint + 1 + Z.of_nat k)%Z with (Z.of_nat (n + k)) by lia.
        rewrite at_label_nth. exact Hk.
      * apply (Hle k); [lia |]. rewrite Hsk. exact Hk.
    + intros j t Hj Hjt.
      destruct (nth_error times (n + Datatypes.S k)) as [th |] eqn:Eh.
      * apply (Hup _ th Eh) with (j := j); [| lia | exact Hjt].
        apply Hnext. rewrite Hsk. exact Eh.
      * exfalso. apply (Hend _ Eh j t); [lia | exact Hjt].
Qed.

(** The bracket, when the hint is [-1] or an index, and some entry at or
    above the hint is at most [v]. *)
Lemma findTime_bracket (times : list (instant R)) (hint : Z) (v : R) :
  ascending times ->
  (-1 <= hint)%Z ->
  (exists i t, (hint <= i)%Z /\ at_label times i = Some t /\ (value t <= v)%R) ->
  exists lo hi tlo,
    findTime times hint v = Some (true, lo, hi)
    /\ (hint <= lo)%Z
    /\ at_label times lo = Some tlo /\ (value tlo <= v)%R
    /\ (forall j t, (hint <= j)%Z -> at_label times j = Some t ->
                    (value t <= v)%R -> (j <= lo)%Z)
    /\ ((lo < size times - 1)%Z -> hi = (lo + 1)%Z)
    /\ (lo = (size times - 1)%Z -> hi = (-1)%Z).
Proof.
  intros Hasc Hhint (i0 & t0 & Hi0 & Ht0 & Hv0).
  unfold findTime. destruct (Z.ltb_spec (hint + 1) 0) as [Hh | Hh]; [lia |].
  destruct (@findTime_lo_spec times hint v Hasc Hh _ eq_refl) as (Hge & Hlo & Habove).
  set (lo := findTime_loop v _ _ _) in *.
  assert (Hmax : forall j t, at_label times j = Some t -> (value t <= v)%R -> (j <= lo)%Z).
  { intros j t Hjt Hjv. destruct (Z_le_gt_dec j lo) as [Hc | Hc]; [exact Hc |].
    specialize (Habove j t ltac:(lia) Hjt). lra. }
  assert (Hat : exists tlo, at_label times lo = Some tlo /\ (value tlo <= v)%R).
  { destruct Hlo as [E | Hlo]; [| exact Hlo].
    exists t0. pose proof (Hmax i0 t0 Ht0 Hv0).
    assert (i0 = lo) by lia. subst i0. split; assumption. }
  destruct Hat as (tlo & Htlo & Hvlo).
  pose proof (at_label_Some _ _ Htlo) as [Hrange _].
  destruct (Z.eqb_spec lo (-1)) as [E | E]; [lia |].
  exists lo, (if (lo <? size times - 1)%Z then (lo + 1)%Z else (-1)%Z), tlo.
  repeat split; try assumption.
  - intros j t _ Hjt Hjv. exact (Hmax j t Hjt Hjv).
  - intros Hlt. destruct (Z.ltb_spec lo (size times - 1)); [reflexivity | lia].
  - intros Heq. destruct (Z.ltb_spec lo (size times - 1)); [lia | reflexivity].
Qed.

Lemma at_label_Forall (A : Type) (P : A -> Prop) (l : list A) (i : Z) (a : A) :
  Forall P l -> at_label l i = Some a -> P a.
Proof.
  intros HP H. apply at_label_Some in H. destruct H as [_ H].
  rewrite Forall_forall in HP. apply HP. eapply nth_error_In. exact H.
Qed.

Lemma sample_times_ascending : ascending sample_times.
Proof. unfold ascending. simpl. repeat constructor; lra. Qed.

(** Runs [findTime] on a series of literals: each comparison is settled by
    linear arithmetic. *)
Ltac run_findTime :=
  cbv -[Rgtb IZR];
  repeat (first [ rewrite Rgtb_true by lra | rewrite Rgtb_false by lra ];
          cbv -[Rgtb IZR]);
  reflexivity.

Lemma findTime_sample_3 : findTime sample_times 0 3%R = Some (true, 2%Z, 3%Z).
Proof. run_findTime. Qed.

Lemma findTime_sample_6 : findTime sample_times 0 6%R = Some (true, 3%Z, (-1)%Z).
Proof. run_findTime. Qed.

Lemma findTime_sample_below : findTime sample_times 0 (-1)%R = Some (true, 0%Z, 1%Z).
Proof. run_findTime. Qed.

Lemma findTime_sample_none : findTime sample_times (-1) (-1)%R = Some (false, (-1)%Z, (-1)%Z).
Proof. run_findTime. Qed.

(** With hint [-1] the scan starts on the first entry; when that entry
    compares greater than the query value the scan stops at once. *)
Lemma findTime_first_above (S : Type) (ops : ScalarOps S)
    (times : list (instant S)) (v : S) :
  times = [] \/ (exists t, at_label times 0 = Some t /\ sgtb (value t) v = true) ->
  findTime times (-1) v = Some (false, (-1)%Z, (-1)%Z).
Proof.
  intros [-> | (t & Ht & Hgt)]; [reflexivity |].
  destruct times as [| t0 rest]; [discriminate |].
  injection Ht as ->.
  unfold findTime. change (-1 + 1)%Z with 0%Z. simpl skipn. simpl Z.ltb. cbv iota.
  simpl findTime_loop. rewrite Hgt. reflexivity.
Qed.

(** Over the reals, a series none of whose entries is at most [v] is empty
    or has a first entry greater than [v]. *)
Lemma none_at_most_first_above (times : list (instant R)) (v : R) :
  (forall i t, at_label times i = Some t -> ~ (value t <= v)%R) ->
  times = [] \/ (exists t, at_label times 0 = Some t /\ sgtb (value t) v = true).
Proof.
  intros Hnone. destruct times as [| t rest]; [now left |].
  right. exists t. split; [reflexivity |].
  apply Rgtb_true. specialize (Hnone 0%Z t eq_refl). lra.
Qed.

(** C2, as the code has it.  For any scalar type: when the hint is [-1],
    the value for "no bracket yet", and the series is empty or its first
    entry compares greater than [v], [findTime] returns [false], as a
    value, with [lo = hi = -1]; so it does on the series 0, 1, 2, 5 with
    hint [-1] and value [-1], over the reals and in binary64. *)
Theorem findTime_not_found (S : Type) (ops : ScalarOps S)
    (times : list (instant S)) (v : S) :
  times = [] \/ (exists t, at_label times 0 = Some t /\ sgtb (value t) v = true) ->
  findTime times (-1) v = Some (false, (-1)%Z, (-1)%Z)
  /\ findTime sample_times (-1) (-1)%R = Some (false, (-1)%Z, (-1)%Z)
  /\ findTime (ops := Fops) (series [0; 1; 2; 5]%float) (-1) (-1)%float
     = Some (false, (-1)%Z, (-1)%Z).
Proof.
  intros H. split; [| split].
  - now apply findTime_first_above.
  - exact findTime_sample_none.
  - vm_compute. reflexivity.
Qed.

Lemma findTime_not_found_witness :
  findTime (ops := Fops) (series [2; 3]%float) (-1) 1%float
  = Some (false, (-1)%Z, (-1)%Z)
  /\ findTime sample_times (-1) (-1)%R = Some (false, (-1)%Z, (-1)%Z)
  /\ findTime (ops := Fops) (series [0; 1; 2; 5]%float) (-1) (-1)%float
     = Some (false, (-1)%Z, (-1)%Z).
Proof.
  apply (@findTime_not_found float Fops (series [2; 3]%float) 1%float).
  right. exists (mkInstant 2%float String.EmptyString).
  split; reflexivity.
Defined.

(** C2, as the spec states it, fails on its own example: on the series
    0, 1, 2, 5 with hint 0 and value -1 no entry from the hint on is at
    most -1, and [findTime] returns [true] with the bracket (0, 1), over
    the reals and in binary64. *)
Lemma findTime_hint_0_found :
  ascending sample_times
  /\ (forall i t, (0 <= i)%Z -> at_label sample_times i = Some t ->
                  ~ (value t <= -1)%R)
  /\ findTime sample_times 0 (-1)%R = Some (true, 0%Z, 1%Z)
  /\ ~ (exists lo hi, findTime sample_times 0 (-1)%R = Some (false, lo, hi))
  /\ findTime (ops := Fops) (series [0; 1; 2; 5]%float) 0 (-1)%float
     = Some (true, 0%Z, 1%Z).
Proof.
  split; [exact sample_times_ascending |]. split; [| split; [| split]].
  - intros i t _ H.
    apply (@at_label_Forall _ (fun t => ~ (value t <= -1)%R) sample_times i);
      [| exact H].
    repeat constructor; simpl; lra.
  - exact findTime_sample_below.
  - intros (lo & hi & H). rewrite findTime_sample_below in H. discriminate.
  - vm_compute. reflexivity.
Qed.

(** C3, as the code has it.  On an ascending series, with a hint that is
    [-1] or more, when some entry at an index from the hint on is at most
    [v]: [findTime] returns [true]; [lo] is the largest index from the hint
    on whose entry is at most [v]; [hi] is [lo + 1] when [lo] is not the
    last index and [-1] ("none") when it is.  On the series 0, 1, 2, 5 with
    hint 0, value 3 gives (true, 2, 3) and value 6 gives (true, 3, -1). *)
Theorem findTime_largest_at_most (times : list (instant R)) (hint : Z) (v : R) :
  ascending times ->
  (-1 <= hint)%Z ->
  (exists i t, (hint <= i)%Z /\ at_label times i = Some t /\ (value t <= v)%R) ->
  (exists lo hi tlo,
     findTime times hint v = Some (true, lo, hi)
     /\ (hint <= lo)%Z
     /\ at_label times lo = Some tlo /\ (value tlo <= v)%R
     /\ (forall j t, (hint <= j)%Z -> at_label times j = Some t ->
                     (value t <= v)%R -> (j <= lo)%Z)
     /\ ((lo < size times - 1)%Z -> hi = (lo + 1)%Z)
     /\ (lo = (size times - 1)%Z -> hi = (-1)%Z))
  /\ findTime sample_times 0 3%R = Some (true, 2%Z, 3%Z)
  /\ findTime sample_times 0 6%R = Some (true, 3%Z, (-1)%Z).
Proof.
  intros Hasc Hhint Hex. split; [| split].
  - now apply findTime_bracket.
  - exact findTime_sample_3.
  - exact findTime_sample_6.
Qed.

Lemma findTime_largest_at_most_witness :
  (exists lo hi tlo,
     findTime sample_times 0 3%R = Some (true, lo, hi)
     /\ (0 <= lo)%Z
     /\ at_label sample_times lo = Some tlo /\ (value tlo <= 3)%R
     /\ (forall j t, (0 <= j)%Z -> at_label sample_times j = Some t ->
                     (value t <= 3)%R -> (j <= lo)%Z)
     /\ ((lo < size sample_times - 1)%Z -> hi = (lo + 1)%Z)
     /\ (lo = (size sample_times - 1)%Z -> hi = (-1)%Z))
  /\ findTime sample_times 0 3%R = Some (true, 2%Z, 3%Z)
  /\ findTime sample_times 0 6%R = Some (true, 3%Z, (-1)%Z).
Proof.
  apply (@findTime_largest_at_most sample_times 0%Z 3%R).
  - unfold ascending. simpl. repeat constructor; lra.
  - lia.
  - exists 1%Z, (mkInstant 1%R String.EmptyString). split; [lia |].
    split; [reflexivity | simpl; lra].
Defined.

(** C3, as the spec states it, fails on the series 0, 1, 2, 5 with hint 0
    and value -1: [findTime] returns [lo = 0], and the entry at 0 is not at
    most -1. *)
Lemma findTime_lo_not_at_most :
  ascending sample_times
  /\ findTime sample_times 0 (-1)%R = Some (true, 0%Z, 1%Z)
  /\ value_at sample_times 0 = Some 0%R
  /\ ~ (0 <= -1)%R.
Proof.
  split; [exact sample_times_ascending |]. split; [exact findTime_sample_below |].
  split; [reflexivity | lra].
Qed.

Lemma findTime_reads_above_hint_witness :
  findTime sample_times 1 3%R = findTime (series [7; 9; 2; 5]%R) 1 3%R
  /\ (forall found lo hi,
        findTime sample_times 1 3%R = Some (found, lo, hi) ->
        (1 <= lo)%Z
        /\ (forall (times'' : list (instant R)) (v2 : R),
              length sample_times = length times'' ->
              (forall i, (lo < i)%Z -> value_at sample_times i = value_at times'' i) ->
              findTime sample_times lo v2 = findTime times'' lo v2)).
Proof.
  apply (@findTime_reads_above_hint R Rops sample_times (series [7; 9; 2; 5]%R) 1%Z 3%R).
  - reflexivity.
  - intros i Hi. unfold value_at, at_label.
    destruct (Z.ltb_spec i 0) as [Hn | Hn]; [lia |].
    destruct (Z.to_nat i) as [| [| k]] eqn:E; [lia | lia | reflexivity].
Defined.

(** ** Vectors of reals *)

Ltac vec_destruct :=
  repeat match goal with
         | v : vector R |- _ => destruct v
         end.

Ltac vec_unfold :=
  cbv [inj nanv dist off normalised offLine vadd vsub vscale vdivs dot cross
       magSqr mag sadd ssub smul sdiv sneg ssqrt szero sgtb sltb Rops XRops
       xlift2 option_map vx vy vz] in *.

Lemma magSqr_nonneg (v : vector R) : (0 <= magSqr v)%R.
Proof. vec_destruct. vec_unfold. nra. Qed.

Lemma mag_nonneg (v : vector R) : (0 <= mag v)%R.
Proof. unfold mag. simpl. apply sqrt_pos. Qed.

Lemma mag_sqr (v : vector R) : (mag v * mag v = magSqr v)%R.
Proof. unfold mag. simpl. apply sqrt_sqrt. apply magSqr_nonneg. Qed.

Lemma mag_zero_iff (v : vector R) :
  mag v = 0%R <-> (vx v = 0 /\ vy v = 0 /\ vz v = 0)%R.
Proof.
  split.
  - intros H. pose proof (mag_sqr v) as Hs. rewrite H in Hs.
    destruct v as [x y z]. vec_unfold. simpl in *. repeat split; nra.
  - intros (Hx & Hy & Hz). destruct v as [x y z]. simpl in *. subst.
    unfold mag. vec_unfold.
    replace (0 * 0 + 0 * 0 + 0 * 0)%R with 0%R by ring. apply sqrt_0.
Qed.

(** ** The operations on defined vectors *)

Lemma vsub_inj (a b : vector R) : vsub (inj a) (inj b) = inj (vsub a b).
Proof. reflexivity. Qed.

Lemma cross_inj (a b : vector R) : cross (inj a) (inj b) = inj (cross a b).
Proof. reflexivity. Qed.

Lemma offLine_inj (p0 e1 p : vector R) :
  offLine (inj p0) (inj e1) (inj p) = inj (offLine p0 e1 p).
Proof. reflexivity. Qed.

Lemma mag_inj (v : vector R) : mag (inj v) = Some (mag v).
Proof.
  unfold mag at 1. change (magSqr (inj v)) with (Some (magSqr v)).
  change (xsqrt (Some (magSqr v)) = Some (mag v)). unfold xsqrt.
  destruct (Rlt_dec (magSqr v) 0) as [H | H]; [| reflexivity].
  pose proof (magSqr_nonneg v). lra.
Qed.

Lemma vdivs_inj (v : vector R) (s : R) :
  s <> 0%R -> vdivs (inj v) (Some s) = inj (vdivs v s).
Proof.
  intros Hs. unfold vdivs. simpl. unfold xdiv.
  destruct (Req_dec_T s 0) as [E | E]; [contradiction | reflexivity].
Qed.

Lemma vdivs_zero (v : vector XR) : vdivs v (Some 0%R) = nanv.
Proof.
  unfold vdivs, nanv. simpl. unfold xdiv.
  destruct (Req_dec_T 0 0) as [E | E]; [| now contradiction E].
  destruct (vx v), (vy v), (vz v); reflexivity.
Qed.

Lemma mag_offLine_nanv (p0 p : vector XR) : mag (offLine p0 nanv p) = None.
Proof.
  destruct p0 as [[x0 |] [y0 |] [z0 |]], p as [[x |] [y |] [z |]]; reflexivity.
Qed.

(** ** The two loops of calcCoordinateSystem *)

Section Loops.
Variable p0 : vector R.

Lemma furthest_step_inj (e : option (vector XR)) (i k : Z) (m : R) (p : vector R) :
  furthest_step (inj p0) (e, i, Some m) (k, inj p)
  = if Rgtb (dist p0 p) m
    then (Some (vdivs (inj (vsub p p0)) (Some (dist p0 p))), k, Some (dist p0 p))
    else (e, i, Some m).
Proof.
  unfold furthest_step. rewrite vsub_inj, mag_inj. reflexivity.
Qed.

(** The first loop, from any state: either nothing is assigned and every
    point is at most [m] away, or the state is that of the turn on a point
    further away than [m] and at least as far as every other. *)
Lemma furthest_fold (l : list (vector R)) :
  forall (k : Z) (e : option (vector XR)) (i : Z) (m : R),
  exists e' i' m',
    fold_left (furthest_step (inj p0)) (enum_from k (map inj l)) (e, i, Some m)
    = (e', i', Some m')
    /\ ((e' = e /\ i' = i /\ m' = m /\ forall q, In q l -> (dist p0 q <= m)%R)
        \/ (exists j p,
              nth_error l j = Some p
              /\ i' = (k + Z.of_nat j)%Z
              /\ m' = dist p0 p
              /\ (m < m')%R
              /\ e' = Some (vdivs (inj (vsub p p0)) (Some m'))
              /\ forall q, In q l -> (dist p0 q <= m')%R)).
Proof.
  induction l as [| p l IH]; intros k e i m.
  - exists e, i, m. split; [reflexivity |]. left. repeat split. intros q [].
  - cbn [map enum_from fold_left]. rewrite furthest_step_inj.
    destruct (Rgtb_cases (dist p0 p) m) as [[E Hd] | [E Hd]]; rewrite E.
    + destruct (IH (k + 1)%Z (Some (vdivs (inj (vsub p p0)) (Some (dist p0 p))))
                  k (dist p0 p))
        as (e' & i' & m' & Hfold & [(He & Hi & Hm & Hall) | (j & q & Hj & Hi & Hm & Hlt & He & Hall)]).
      * exists e', i', m'. split; [exact Hfold |]. right. exists 0%nat, p. subst.
        repeat split; try assumption; try lia.
        intros q [<- | Hq]; [lra | now apply Hall].
      * exists e', i', m'. split; [exact Hfold |]. right. exists (Datatypes.S j), q.
        repeat split; try assumption; try lia; try lra.
        intros q' [<- | Hq]; [lra | now apply Hall].
    + destruct (IH (k + 1)%Z e i m)
        as (e' & i' & m' & Hfold & [(He & Hi & Hm & Hall) | (j & q & Hj & Hi & Hm & Hlt & He & Hall)]).
      * exists e', i', m'. split; [exact Hfold |]. left. subst.
        repeat split. intros q [<- | Hq]; [lra | now apply Hall].
      * exists e', i', m'. split; [exact Hfold |]. right. exists (Datatypes.S j), q.
        repeat split; try assumption; try lia.
        intros q' [<- | Hq]; [lra | now apply Hall].
Qed.

Variable e1 : vector R.
Variable index1 : Z.

Lemma offLine_step_inj (i k : Z) (m : R) (p : vector R) :
  offLine_step (inj p0) (inj e1) index1 (i, Some m) (k, inj p)
  = if (k =? index1)%Z then (i, Some m)
    else if Rgtb (off p0 e1 p) m then (k, Some (off p0 e1 p)) else (i, Some m).
Proof.
  unfold offLine_step. rewrite offLine_inj, mag_inj.
  destruct (k =? index1)%Z; reflexivity.
Qed.

(** The second loop, from any state, when [e1] is defined: either nothing
    is assigned and every point but [index1] is at most [m] off the line,
    or the state is that of the turn on a point other than [index1],
    further off than [m] and at least as far off as every other. *)
Lemma offLine_fold (l : list (vector R)) :
  forall (k i : Z) (m : R),
  exists i' m',
    fold_left (offLine_step (inj p0) (inj e1) index1) (enum_from k (map inj l))
              (i, Some m)
    = (i', Some m')
    /\ ((i' = i /\ m' = m
         /\ forall j q, nth_error l j = Some q -> (k + Z.of_nat j)%Z <> index1 ->
                        (off p0 e1 q <= m)%R)
        \/ (exists j p,
              nth_error l j = Some p
              /\ i' = (k + Z.of_nat j)%Z
              /\ i' <> index1
              /\ m' = off p0 e1 p
              /\ (m < m')%R
              /\ forall j q, nth_error l j = Some q -> (k + Z.of_nat j)%Z <> index1 ->
                             (off p0 e1 q <= m')%R)).
Proof.
  induction l as [| p l IH]; intros k i m.
  - exists i, m. split; [reflexivity |]. left. repeat split.
    intros [| j] q H; discriminate.
  - cbn [map enum_from fold_left]. rewrite offLine_step_inj.
    assert (Hshift : forall j : nat, (k + 1 + Z.of_nat j = k + Z.of_nat (Datatypes.S j))%Z)
      by (intros; lia).
    destruct (Z.eqb_spec k index1) as [Ek | Ek].
    + (* the point [index1] is passed over *)
      destruct (IH (k + 1)%Z i m)
        as (i' & m' & Hfold & [(Hi & Hm & Hall) | (j & q & Hj & Hi & Hne & Hm & Hlt & Hall)]).
      * exists i', m'. split; [exact Hfold |]. left. repeat split; try assumption.
        intros [| j] q Hq Hne; [simpl in Hne; lia |].
        apply (Hall j); [exact Hq | lia].
      * exists i', m'. split; [exact Hfold |]. right. exists (Datatypes.S j), q.
        repeat split; try assumption; try lia.
        intros [| j'] q' Hq Hne'; [simpl in Hne'; lia |].
        apply (Hall j'); [exact Hq | lia].
    + destruct (Rgtb_cases (off p0 e1 p) m) as [[E Hd] | [E Hd]]; rewrite E.
      * destruct (IH (k + 1)%Z k (off p0 e1 p))
          as (i' & m' & Hfold & [(Hi & Hm & Hall) | (j & q & Hj & Hi & Hne & Hm & Hlt & Hall)]).
        -- exists i', m'. split; [exact Hfold |]. right. exists 0%nat, p. subst.
           repeat split; try assumption; try lia.
           intros [| j] q Hq Hne; [injection Hq as <-; lra |].
           apply (Hall j); [exact Hq | lia].
        -- exists i', m'. split; [exact Hfold |]. right. exists (Datatypes.S j), q.
           repeat split; try assumption; try lia; try lra.
           intros [| j'] q' Hq Hne'; [injection Hq as <-; lra |].
           apply (Hall j'); [exact Hq | lia].
      * destruct (IH (k + 1)%Z i m)
          as (i' & m' & Hfold & [(Hi & Hm & Hall) | (j & q & Hj & Hi & Hne & Hm & Hlt & Hall)]).
        -- exists i', m'. split; [exact Hfold |]. left. subst. repeat split.
           intros [| j] q Hq Hne; [injection Hq as <-; lra |].
           apply (Hall j); [exact Hq | lia].
        -- exists i', m'. split; [exact Hfold |]. right. exists (Datatypes.S j), q.
           repeat split; try assumption; try lia.
           intros [| j'] q' Hq Hne'; [injection Hq as <-; lra |].
           apply (Hall j'); [exact Hq | lia].
Qed.

(** The second loop when [e1] is undefined: no comparison holds and nothing
    is assigned. *)
Lemma offLine_fold_nanv (l : list (vector XR)) :
  forall (k : Z) (st : Z * XR),
    fold_left (offLine_step (inj p0) nanv index1) (enum_from k l) st = st.
Proof.
  induction l as [| p l IH]; intros k st; [reflexivity |].
  cbn [map enum_from fold_left].
  replace (offLine_step (inj p0) nanv index1 st (k, p)) with st; [apply IH |].
  unfold offLine_step. destruct st as [i m].
  destruct (negb (k =? index1)%Z); [| reflexivity].
  rewrite mag_offLine_nanv. reflexivity.
Qed.

End Loops.

(** ** calcCoordinateSystem on three points or more *)

Lemma at_label_map_inj (P : list (vector R)) (k : nat) (p : vector R) :
  nth_error P k = Some p -> at_label (map inj P) (Z.of_nat k) = Some (inj p).
Proof.
  intros H. rewrite at_label_nth. now apply map_nth_error.
Qed.

Lemma off_nonneg (p0 e1 p : vector R) : (0 <= off p0 e1 p)%R.
Proof. apply mag_nonneg. Qed.

Lemma dist_nonneg (p0 p : vector R) : (0 <= dist p0 p)%R.
Proof. apply mag_nonneg. Qed.

(** What the function does on [p0 :: rest], [rest] of two points or more.
    The first loop stops on a point [p1] of [rest] furthest from [p0].
    When [p1] is at [p0], [e1] is 0/0, no comparison of the second loop
    holds and the function ends in the second fatal error.  Otherwise the
    second loop stops on another point [p2] of [rest], furthest from the
    line, and the function returns the frame built on [p0], [p1], [p2]. *)
Lemma calcCoordinateSystem_spec (G : R) (p0 : vector R) (rest : list (vector R)) :
  (0 < G)%R ->
  (2 <= length rest)%nat ->
  exists j1 p1,
    nth_error rest j1 = Some p1
    /\ (forall q, In q rest -> (dist p0 q <= dist p0 p1)%R)
    /\ furthest_loop (Some G) (inj p0) (map inj (p0 :: rest))
       = (Some (vdivs (inj (vsub p1 p0)) (Some (dist p0 p1))),
          (1 + Z.of_nat j1)%Z, Some (dist p0 p1))
    /\ ((dist p0 p1 = 0%R
         /\ calcCoordinateSystem (Some G) (map inj (p0 :: rest))
            = FatalError DegenerateGeometryError)
        \/ ((0 < dist p0 p1)%R
            /\ exists j2 p2,
                nth_error rest j2 = Some p2
                /\ j2 <> j1
                /\ (forall j q, nth_error rest j = Some q -> j <> j1 ->
                      (off p0 (vdivs (vsub p1 p0) (dist p0 p1)) q
                       <= off p0 (vdivs (vsub p1 p0) (dist p0 p1)) p2)%R)
                /\ offLine_loop (Some G) (inj p0)
                     (inj (vdivs (vsub p1 p0) (dist p0 p1)))
                     (1 + Z.of_nat j1) (map inj (p0 :: rest))
                   = ((1 + Z.of_nat j2)%Z,
                      Some (off p0 (vdivs (vsub p1 p0) (dist p0 p1)) p2))
                /\ calcCoordinateSystem (Some G) (map inj (p0 :: rest))
                   = Ok (mkCoordinateSystem
                           (inj p0)
                           (normalised
                              (cross (inj (vdivs (vsub p1 p0) (dist p0 p1)))
                                     (inj (vsub p2 p0))))
                           (inj (vdivs (vsub p1 p0) (dist p0 p1)))))).
Proof.
  intros HG Hlen.
  remember (calcCoordinateSystem (Some G) (map inj (p0 :: rest))) as c eqn:Ec.
  unfold calcCoordinateSystem in Ec.
  assert (Hsize : (size (map inj (p0 :: rest)) <? 3)%Z = false).
  { unfold size. rewrite length_map. simpl length.
    destruct (Z.ltb_spec (Z.of_nat (Datatypes.S (length rest))) 3); [lia | reflexivity]. }
  rewrite Hsize in Ec.
  change (at_label (map inj (p0 :: rest)) 0) with (Some (inj p0)) in Ec.
  cbv beta iota in Ec.
  destruct (furthest_fold p0 rest 1 None (-1) (- G))
    as (e' & i1 & m1 & Hfold & [(_ & _ & _ & Hall) | (j1 & p1 & Hj1 & Hi1 & Hm1 & _ & He & Hall)]).
  { (* the first turn always assigns *)
    exfalso. destruct rest as [| q rest]; [simpl in Hlen; lia |].
    specialize (Hall q (or_introl eq_refl)). pose proof (dist_nonneg p0 q). lra. }
  change (furthest_loop (Some G) (inj p0) (map inj (p0 :: rest)) = (e', i1, Some m1))
    in Hfold.
  rewrite Hfold in Ec. subst m1 e' i1.
  exists j1, p1. split; [exact Hj1 |]. split; [exact Hall |]. split; [exact Hfold |].
  assert (Hp1 : at_label (map inj (p0 :: rest)) (1 + Z.of_nat j1) = Some (inj p1)).
  { replace (1 + Z.of_nat j1)%Z with (Z.of_nat (Datatypes.S j1)) by lia.
    apply at_label_map_inj. exact Hj1. }
  rewrite Hp1 in Ec.
  destruct (Req_dec_T (dist p0 p1) 0) as [Hz | Hnz].
  - left. split; [exact Hz |].
    unfold offLine_loop in Ec.
    rewrite Hz, vdivs_zero, offLine_fold_nanv in Ec. exact Ec.
  - right. pose proof (dist_nonneg p0 p1) as Hnn. split; [lra |].
    rewrite (vdivs_inj _ Hnz) in Ec.
    set (e1 := vdivs (vsub p1 p0) (dist p0 p1)) in *.
    destruct (offLine_fold p0 e1 (1 + Z.of_nat j1) rest 1 (-1) (- G))
      as (i2 & m2 & Hfold2 & [(_ & _ & Hall2) | (j2 & p2 & Hj2 & Hi2 & Hne & Hm2 & _ & Hall2)]).
    { (* with two points or more, one is not [index1] and is assigned *)
      exfalso.
      destruct rest as [| q0 [| q1 rest]]; [simpl in Hlen; lia | simpl in Hlen; lia |].
      destruct (Nat.eq_dec j1 0) as [E | E].
      - specialize (Hall2 1%nat q1 eq_refl ltac:(lia)).
        pose proof (off_nonneg p0 e1 q1). lra.
      - specialize (Hall2 0%nat q0 eq_refl ltac:(lia)).
        pose proof (off_nonneg p0 e1 q0). lra. }
    change (offLine_loop (Some G) (inj p0) (inj e1) (1 + Z.of_nat j1)
              (map inj (p0 :: rest)) = (i2, Some m2)) in Hfold2.
    rewrite Hfold2 in Ec. subst i2 m2.
    destruct (Z.eqb_spec (1 + Z.of_nat j2) (-1)) as [E | E]; [lia |].
    assert (Hp2 : at_label (map inj (p0 :: rest)) (1 + Z.of_nat j2) = Some (inj p2)).
    { replace (1 + Z.of_nat j2)%Z with (Z.of_nat (Datatypes.S j2)) by lia.
      apply at_label_map_inj. exact Hj2. }
    rewrite Hp2 in Ec.
    exists j2, p2. split; [exact Hj2 |]. split; [lia |]. split.
    + intros j q Hq Hjne. apply (Hall2 j); [exact Hq | lia].
    + split; [exact Hfold2 | exact Ec].
Qed.

(** ** The geometry of the frame *)

(** A vector divided by its magnitude has magnitude 1. *)
Lemma magSqr_vdivs_mag (d : vector R) :
  (0 < mag d)%R -> magSqr (vdivs d (mag d)) = 1%R.
Proof.
  intros Hm. pose proof (mag_sqr d) as Hs.
  set (m := mag d) in *. clearbody m.
  destruct d as [x y z]. vec_unfold. simpl in *.
  replace (x / m * (x / m) + y / m * (y / m) + z / m * (z / m))%R
    with ((x * x + y * y + z * z) / (m * m))%R by (field; lra).
  rewrite <- Hs. field. lra.
Qed.


(** For a unit [e1], [e1 ^ (p - p0)] is as long as [p] is far from the line
    through [p0] along [e1]. *)
Lemma mag_cross_off (p0 e1 p : vector R) :
  magSqr e1 = 1%R -> mag (cross e1 (vsub p p0)) = off p0 e1 p.
Proof.
  intros He. unfold off, mag. f_equal.
  destruct p0 as [x0 y0 z0], e1 as [a b c], p as [x y z].
  vec_unfold. simpl in *.
  set (u := (x - x0)%R). set (v := (y - y0)%R). set (w := (z - z0)%R).
  transitivity ((a * a + b * b + c * c) * (u * u + v * v + w * w)
                - (u * a + v * b + w * c) * (u * a + v * b + w * c))%R; [ring |].
  transitivity ((u * u + v * v + w * w)
                - 2 * ((u * a + v * b + w * c) * (u * a + v * b + w * c))
                + (u * a + v * b + w * c) * (u * a + v * b + w * c)
                  * (a * a + b * b + c * c))%R; [rewrite He; ring | ring].
Qed.

Lemma dot_cross_left (e v : vector R) : dot (cross e v) e = 0%R.
Proof. destruct e, v. vec_unfold. simpl. ring. Qed.

Lemma dot_vdivs_left (n e : vector R) (m : R) :
  m <> 0%R -> dot (vdivs n m) e = (dot n e / m)%R.
Proof. intros Hm. destruct n, e. vec_unfold. simpl. field. exact Hm. Qed.

Lemma normalised_inj (n : vector R) :
  mag n <> 0%R -> normalised (inj n) = inj (vdivs n (mag n)).
Proof. intros H. unfold normalised. rewrite mag_inj. now apply vdivs_inj. Qed.

Lemma normalised_inj_zero (n : vector R) :
  mag n = 0%R -> normalised (inj n) = nanv.
Proof. intros H. unfold normalised. rewrite mag_inj, H. apply vdivs_zero. Qed.

(** ** Points on a line *)

Lemma dist_zero_eq (p0 q : vector R) : dist p0 q = 0%R -> q = p0.
Proof.
  intros H. apply mag_zero_iff in H. destruct H as (Hx & Hy & Hz).
  destruct p0, q. vec_unfold. simpl in *. f_equal; lra.
Qed.

Lemma dist_self (p0 : vector R) : dist p0 p0 = 0%R.
Proof.
  apply mag_zero_iff. destruct p0. vec_unfold. simpl. repeat split; lra.
Qed.

Lemma colinear_coincident (p0 : vector R) (rest : list (vector R)) :
  (forall q, In q rest -> dist p0 q = 0%R) -> colinear (p0 :: rest).
Proof.
  intros H. exists p0, p0. intros p Hp. exists 0%R.
  assert (Hpp : p = p0).
  { destruct Hp as [<- | Hp]; [reflexivity |]. apply dist_zero_eq. now apply H. }
  subst p. destruct p0. vec_unfold. simpl. f_equal; lra.
Qed.

Lemma colinear_on_axis (p0 e1 : vector R) (rest : list (vector R)) :
  (forall q, In q rest -> exists t, vsub q p0 = vscale t e1) ->
  colinear (p0 :: rest).
Proof.
  intros H. exists p0, e1. intros p [<- | Hp].
  - exists 0%R. destruct p0, e1. vec_unfold. simpl. f_equal; lra.
  - destruct (H p Hp) as [t Ht]. exists t.
    destruct p0, e1, p. vec_unfold. simpl in *.
    injection Ht as Hx Hy Hz. f_equal; lra.
Qed.

(** On a line, [e1 ^ (p2 - p0)] vanishes, whatever the length [e1] was
    divided by. *)
Lemma colinear_cross (P : list (vector R)) (p0 p1 p2 : vector R) (m : R) :
  colinear P -> In p0 P -> In p1 P -> In p2 P ->
  mag (cross (vdivs (vsub p1 p0) m) (vsub p2 p0)) = 0%R.
Proof.
  intros (a & u & Hline) H0 H1 H2.
  destruct (Hline p0 H0) as [t0 ->], (Hline p1 H1) as [t1 ->],
           (Hline p2 H2) as [t2 ->].
  apply mag_zero_iff. destruct a, u. vec_unfold. simpl. unfold Rdiv.
  repeat split; ring.
Qed.

(** A point no further than 0 from the line through [p0] along [e1] is on
    it. *)
Lemma off_zero_on_axis (p0 e1 q : vector R) :
  off p0 e1 q = 0%R -> exists t, vsub q p0 = vscale t e1.
Proof.
  intros H. apply mag_zero_iff in H. destruct H as (Hx & Hy & Hz).
  exists (dot (vsub q p0) e1).
  destruct p0, e1, q. vec_unfold. simpl in *. f_equal; lra.
Qed.

Lemma vsub_scale_dist (p0 p1 : vector R) :
  dist p0 p1 <> 0%R ->
  vsub p1 p0 = vscale (dist p0 p1) (vdivs (vsub p1 p0) (dist p0 p1)).
Proof.
  intros H. set (m := dist p0 p1) in *. clearbody m.
  destruct p0, p1. vec_unfold. simpl. f_equal; field; exact H.
Qed.

Lemma three_points (A : Type) (P : list A) :
  (3 <= length P)%nat ->
  exists p0 rest, P = p0 :: rest /\ (2 <= length rest)%nat.
Proof.
  destruct P as [| p0 rest]; simpl; intros H; [lia |].
  exists p0, rest. split; [reflexivity | lia].
Qed.

(** When the points are not on a line, the furthest point is away from
    [p0] and the point furthest from the line is off it. *)
Lemma not_colinear_spread (p0 p1 p2 : vector R) (rest : list (vector R)) (j1 : nat) :
  ~ colinear (p0 :: rest) ->
  nth_error rest j1 = Some p1 ->
  (forall q, In q rest -> (dist p0 q <= dist p0 p1)%R) ->
  (forall j q, nth_error rest j = Some q -> j <> j1 ->
     (off p0 (vdivs (vsub p1 p0) (dist p0 p1)) q
      <= off p0 (vdivs (vsub p1 p0) (dist p0 p1)) p2)%R) ->
  (0 < dist p0 p1)%R /\ (0 < off p0 (vdivs (vsub p1 p0) (dist p0 p1)) p2)%R.
Proof.
  intros Hnc Hj1 Hfar Hoff.
  assert (Hd : (0 < dist p0 p1)%R).
  { destruct (Rle_lt_dec (dist p0 p1) 0) as [Hle | Hlt]; [| exact Hlt].
    exfalso. apply Hnc. apply colinear_coincident. intros q Hq.
    specialize (Hfar q Hq). pose proof (dist_nonneg p0 q). lra. }
  split; [exact Hd |].
  set (e1 := vdivs (vsub p1 p0) (dist p0 p1)) in *.
  destruct (Rle_lt_dec (off p0 e1 p2) 0) as [Hle | Hlt]; [| exact Hlt].
  exfalso. apply Hnc. apply (@colinear_on_axis p0 e1). intros q Hq.
  apply In_nth_error in Hq. destruct Hq as [j Hj].
  destruct (Nat.eq_dec j j1) as [-> | Hne].
  - rewrite Hj1 in Hj. injection Hj as <-.
    exists (dist p0 p1). apply vsub_scale_dist. lra.
  - apply off_zero_on_axis. specialize (Hoff j q Hj Hne).
    pose proof (off_nonneg p0 e1 q). fold e1 in Hoff. lra.
Qed.


(** ** The frame of calcCoordinateSystem *)

Lemma at_label_cons (A : Type) (a : A) (l : list A) (k : nat) :
  at_label (a :: l) (1 + Z.of_nat k) = nth_error l k.
Proof.
  replace (1 + Z.of_nat k)%Z with (Z.of_nat (Datatypes.S k)) by lia.
  rewrite at_label_nth. reflexivity.
Qed.

Lemma at_label_cons_cases (A : Type) (a : A) (l : list A) (j : Z) (q : A) :
  at_label (a :: l) j = Some q ->
  (j = 0%Z /\ q = a)
  \/ (exists k, j = (1 + Z.of_nat k)%Z /\ nth_error l k = Some q).
Proof.
  intros H. apply at_label_Some in H. destruct H as [Hr Hn].
  destruct (Z.to_nat j) as [| k] eqn:E.
  - left. simpl in Hn. injection Hn as <-. split; [lia | reflexivity].
  - right. exists k. split; [lia | exact Hn].
Qed.

Lemma off_self (p0 e1 : vector R) : off p0 e1 p0 = 0%R.
Proof.
  apply mag_zero_iff. destruct p0, e1. vec_unfold. simpl. repeat split; ring.
Qed.

Lemma spread_dist (p0 p1 : vector R) (rest : list (vector R)) :
  spread (p0 :: rest) ->
  (forall q, In q rest -> (dist p0 q <= dist p0 p1)%R) ->
  (0 < dist p0 p1)%R.
Proof.
  intros (q & Hq & Hne) Hfar.
  destruct Hq as [<- | Hq]; [now contradiction Hne |].
  specialize (Hfar q Hq). pose proof (dist_nonneg p0 q) as Hnn.
  destruct (Req_dec_T (dist p0 q) 0) as [Hz | Hnz]; [| lra].
  apply dist_zero_eq in Hz. subst q. now contradiction Hne.
Qed.

(** With some point away from [P[0]], both loops assign and the frame is
    returned; on a line, the vector to normalise has magnitude 0 and the
    normal of the frame is undefined. *)
Lemma calcCoordinateSystem_spread (G : R) (P : list (vector R)) :
  (0 < G)%R ->
  (3 <= length P)%nat ->
  spread P ->
  exists p0 e1 i1 m1 i2 m2 p2,
    at_label P 0 = Some p0
    /\ furthest_loop (Some G) (inj p0) (map inj P) = (Some (inj e1), i1, m1)
    /\ offLine_loop (Some G) (inj p0) (inj e1) i1 (map inj P) = (i2, m2)
    /\ i2 <> (-1)%Z
    /\ at_label P i2 = Some p2
    /\ calcCoordinateSystem (Some G) (map inj P)
       = Ok (mkCoordinateSystem
               (inj p0)
               (normalised (cross (inj e1) (vsub (inj p2) (inj p0))))
               (inj e1))
    /\ (colinear P ->
        mag (cross (inj e1) (vsub (inj p2) (inj p0))) = Some 0%R
        /\ calcCoordinateSystem (Some G) (map inj P)
           = Ok (mkCoordinateSystem (inj p0) nanv (inj e1))).
Proof.
  intros HG Hlen Hsp.
  destruct (three_points P Hlen) as (p0 & rest & -> & Hrest).
  destruct (calcCoordinateSystem_spec p0 rest HG Hrest)
    as (j1 & p1 & Hj1 & Hfar & Hloop1
        & [[Hz _] | (Hd & j2 & p2 & Hj2 & _ & Hoff & Hloop2 & Hcs)]).
  - pose proof (@spread_dist p0 p1 rest Hsp Hfar). lra.
  - rewrite vdivs_inj in Hloop1 by lra.
    set (e1 := vdivs (vsub p1 p0) (dist p0 p1)) in *.
    exists p0, e1, (1 + Z.of_nat j1)%Z, (Some (dist p0 p1)),
           (1 + Z.of_nat j2)%Z, (Some (off p0 e1 p2)), p2.
    split; [reflexivity |]. split; [exact Hloop1 |]. split; [exact Hloop2 |].
    split; [lia |]. split; [rewrite at_label_cons; exact Hj2 |].
    split; [exact Hcs |].
    intros Hcol.
    assert (Hn : mag (cross e1 (vsub p2 p0)) = 0%R).
    { apply (@colinear_cross (p0 :: rest)); [exact Hcol | now left | right | right].
      - eapply nth_error_In. exact Hj1.
      - eapply nth_error_In. exact Hj2. }
    rewrite vsub_inj, cross_inj, mag_inj, Hn. split; [reflexivity |].
    rewrite Hcs. rewrite cross_inj, (normalised_inj_zero _ Hn). reflexivity.
Qed.


(** ** The sample point sets *)

Lemma GREAT_double_pos : (0 < GREAT_double)%R.
Proof. unfold GREAT_double. lra. Qed.

Lemma line_points_colinear : colinear line_points.
Proof.
  exists (mkVector 0 0 0)%R, (mkVector 1 0 0)%R. intros p Hp. simpl in Hp.
  destruct Hp as [<- | [<- | [<- | []]]];
    [exists 0%R | exists 1%R | exists 2%R]; vec_unfold; f_equal; lra.
Qed.

Lemma line_points_spread : spread line_points.
Proof.
  exists (mkVector 1 0 0)%R. split; [simpl; auto |].
  intros E. injection E as E. lra.
Qed.



(** ** calcCoordinateSystem: the claims *)

(** The yardstick of the distance from the line: what the second loop
    measures is the length of the offset without its component along
    [e1]. *)
Lemma off_without_component (p0 e1 q : vector R) :
  off p0 e1 q = mag (without_component (vsub q p0) e1).
Proof. reflexivity. Qed.

(** For a unit [e], the offset without its component along [e] is
    orthogonal to [e], differs from the offset by a multiple of [e], and
    is the shortest of the vectors [w - t e]. *)
Lemma without_component_orthogonal (w e : vector R) :
  magSqr e = 1%R -> dot (without_component w e) e = 0%R.
Proof.
  intros He. destruct w as [x y z], e as [a b c].
  cbv [without_component magSqr dot sadd smul Rops vx vy vz] in *.
  transitivity ((x * a + y * b + z * c) * (1 - (a * a + b * b + c * c)))%R;
    [ring | rewrite He; ring].
Qed.

Lemma without_component_parallel (w e : vector R) :
  vsub w (without_component w e) = vscale (dot w e) e.
Proof.
  destruct w as [x y z], e as [a b c].
  cbv [without_component vsub vscale dot sadd ssub smul Rops vx vy vz].
  f_equal; ring.
Qed.

Lemma without_component_shortest (w e : vector R) (t : R) :
  magSqr e = 1%R ->
  (mag (without_component w e) <= mag (vsub w (vscale t e)))%R.
Proof.
  intros He. unfold mag. cbv [ssqrt Rops]. apply sqrt_le_1_alt.
  destruct w as [x y z], e as [a b c].
  cbv [without_component magSqr vsub vscale sadd ssub smul Rops vx vy vz] in *.
  set (d := (x * a + y * b + z * c)%R).
  assert (E1 : ((x - d * a) * (x - d * a) + (y - d * b) * (y - d * b)
                + (z - d * c) * (z - d * c)
                = (x * x + y * y + z * z) - 2 * (d * d)
                  + d * d * (a * a + b * b + c * c))%R) by (unfold d; ring).
  assert (E2 : ((x - t * a) * (x - t * a) + (y - t * b) * (y - t * b)
                + (z - t * c) * (z - t * c)
                = (x * x + y * y + z * z) - 2 * (t * d)
                  + t * t * (a * a + b * b + c * c))%R) by (unfold d; ring).
  rewrite E1, E2, He.
  pose proof (Rle_0_sqr (t - d)) as Hsq. unfold Rsqr in Hsq. lra.
Qed.

Lemma dot_cross_right (e v : vector R) : dot (cross e v) v = 0%R.
Proof. destruct e, v. vec_unfold. simpl. ring. Qed.

Lemma vscale_vdivs (v : vector R) (m : R) :
  m <> 0%R -> v = vscale m (vdivs v m).
Proof.
  intros H. destruct v. vec_unfold. simpl. f_equal; field; exact H.
Qed.

(** C7, as the code has it: in exact arithmetic.  For three points or
    more, whenever some point is away from [P[0]] the function returns a
    frame, and every frame it returns has: origin [P[0]]; axis [e1] the
    normalised offset from [P[0]] of a point [p1] of [P] as far from
    [P[0]] as any, that is the unit vector with [p1 - P[0] = |p1 - P[0]| e1];
    normal the normalised [e1 ^ (p2 - P[0])], where [p2] is a point of [P]
    other than [p1] whose offset from [P[0]], without its component along
    [e1], is as long as that of any point other than [p1]: a unit vector
    along [e1 ^ (p2 - P[0])], orthogonal to [e1] and to [p2 - P[0]], when
    that is not null, undefined when it is. *)
Theorem calcCoordinateSystem_frame (G : R) (P : list (vector R)) :
  (0 < G)%R ->
  (3 <= length P)%nat ->
  (spread P -> exists cs, calcCoordinateSystem (Some G) (map inj P) = Ok cs)
  /\ (forall cs,
        calcCoordinateSystem (Some G) (map inj P) = Ok cs ->
        exists p0 i1 p1 i2 p2 e1,
          at_label P 0 = Some p0
          /\ at_label P i1 = Some p1
          /\ at_label P i2 = Some p2
          /\ i2 <> i1
          /\ (forall q, In q P -> (dist p0 q <= dist p0 p1)%R)
          /\ magSqr e1 = 1%R
          /\ vsub p1 p0 = vscale (dist p0 p1) e1
          /\ (forall j q, at_label P j = Some q -> j <> i1 ->
                (mag (without_component (vsub q p0) e1)
                 <= mag (without_component (vsub p2 p0) e1))%R)
          /\ origin cs = inj p0
          /\ axis cs = inj e1
          /\ axis cs = normalised (vsub (inj p1) (inj p0))
          /\ normal cs = normalised (cross (axis cs) (vsub (inj p2) (inj p0)))
          /\ (mag (cross e1 (vsub p2 p0)) <> 0%R ->
              exists n, normal cs = inj n
                        /\ magSqr n = 1%R
                        /\ dot n e1 = 0%R
                        /\ dot n (vsub p2 p0) = 0%R
                        /\ cross e1 (vsub p2 p0)
                           = vscale (mag (cross e1 (vsub p2 p0))) n)
          /\ (mag (cross e1 (vsub p2 p0)) = 0%R -> normal cs = nanv)).
Proof.
  intros HG Hlen. split.
  - intros Hsp.
    destruct (calcCoordinateSystem_spread HG Hlen Hsp)
      as (p0 & e1 & i1 & m1 & i2 & m2 & p2 & _ & _ & _ & _ & _ & Hcs & _).
    eexists. exact Hcs.
  - intros cs Hok.
    destruct (three_points P Hlen) as (p0 & rest & -> & Hrest).
    destruct (calcCoordinateSystem_spec p0 rest HG Hrest)
      as (j1 & p1 & Hj1 & Hfar & _
          & [[_ Hcs] | (Hd & j2 & p2 & Hj2 & Hne & Hoff & _ & Hcs)]);
      rewrite Hcs in Hok; [discriminate |].
    injection Hok as <-.
    set (e1 := vdivs (vsub p1 p0) (dist p0 p1)) in *.
    exists p0, (1 + Z.of_nat j1)%Z, p1, (1 + Z.of_nat j2)%Z, p2, e1.
    split; [reflexivity |].
    split; [rewrite at_label_cons; exact Hj1 |].
    split; [rewrite at_label_cons; exact Hj2 |].
    split; [lia |]. split; [| split; [| split; [| split]]].
    + intros q [<- | Hq]; [rewrite dist_self; lra | now apply Hfar].
    + apply magSqr_vdivs_mag. exact Hd.
    + apply vsub_scale_dist. lra.
    + intros j q Hq Hj. rewrite <- !off_without_component.
      pose proof (off_nonneg p0 e1 p2).
      destruct (@at_label_cons_cases _ _ _ _ _ Hq) as [[-> ->] | (k & -> & Hk)].
      * rewrite off_self. lra.
      * apply (Hoff k); [exact Hk | lia].
    + cbn [origin axis normal].
      split; [reflexivity |]. split; [reflexivity |]. split; [| split; [| split]].
      * rewrite vsub_inj, normalised_inj; [reflexivity |].
        change (mag (vsub p1 p0)) with (dist p0 p1). lra.
      * reflexivity.
      * intros Hn. rewrite cross_inj, normalised_inj by exact Hn.
        exists (vdivs (cross e1 (vsub p2 p0)) (mag (cross e1 (vsub p2 p0)))).
        split; [reflexivity |]. split; [| split; [| split]].
        -- apply magSqr_vdivs_mag.
           pose proof (mag_nonneg (cross e1 (vsub p2 p0))). lra.
        -- rewrite dot_vdivs_left by exact Hn.
           rewrite dot_cross_left. field. exact Hn.
        -- rewrite dot_vdivs_left by exact Hn.
           rewrite dot_cross_right. field. exact Hn.
        -- apply vscale_vdivs. exact Hn.
      * intros Hn. rewrite cross_inj. apply normalised_inj_zero. exact Hn.
Qed.

Lemma calcCoordinateSystem_frame_witness :
  (spread plane_points ->
   exists cs, calcCoordinateSystem (Some GREAT_double) (map inj plane_points) = Ok cs)
  /\ (forall cs,
        calcCoordinateSystem (Some GREAT_double) (map inj plane_points) = Ok cs ->
        exists p0 i1 p1 i2 p2 e1,
          at_label plane_points 0 = Some p0
          /\ at_label plane_points i1 = Some p1
          /\ at_label plane_points i2 = Some p2
          /\ i2 <> i1
          /\ (forall q, In q plane_points -> (dist p0 q <= dist p0 p1)%R)
          /\ magSqr e1 = 1%R
          /\ vsub p1 p0 = vscale (dist p0 p1) e1
          /\ (forall j q, at_label plane_points j = Some q -> j <> i1 ->
                (mag (without_component (vsub q p0) e1)
                 <= mag (without_component (vsub p2 p0) e1))%R)
          /\ origin cs = inj p0
          /\ axis cs = inj e1
          /\ axis cs = normalised (vsub (inj p1) (inj p0))
          /\ normal cs = normalised (cross (axis cs) (vsub (inj p2) (inj p0)))
          /\ (mag (cross e1 (vsub p2 p0)) <> 0%R ->
              exists n, normal cs = inj n
                        /\ magSqr n = 1%R
                        /\ dot n e1 = 0%R
                        /\ dot n (vsub p2 p0) = 0%R
                        /\ cross e1 (vsub p2 p0)
                           = vscale (mag (cross e1 (vsub p2 p0))) n)
          /\ (mag (cross e1 (vsub p2 p0)) = 0%R -> normal cs = nanv)).
Proof.
  apply (@calcCoordinateSystem_frame GREAT_double plane_points).
  - unfold GREAT_double. lra.
  - simpl. lia.
Defined.






(** C7, as stated, fails in binary64 on three points that span a plane
    with coordinates 2^600: the distance of the furthest point overflows
    to infinity, and the axis returned is its offset divided by infinity,
    (0,0,0), of magnitude 0: no normalised offset; the normal is NaN. *)
Lemma calcCoordinateSystem_binary64_axis_null :
  (3 <= length huge_points_float)%nat
  /\ furthest_loop (ops := Fops) GREAT_float (mkVector 0 0 0)%float huge_points_float
     = (Some (mkVector 0 0 0)%float, 1%Z, infinity)
  /\ calcCoordinateSystem (ops := Fops) GREAT_float huge_points_float
     = Ok (mkCoordinateSystem (mkVector 0 0 0)%float
                              (mkVector nan nan nan)
                              (mkVector 0 0 0)%float)
  /\ mag (ops := Fops) (mkVector 0 0 0)%float = 0%float.
Proof.
  split; [simpl; lia |]. repeat split; vm_compute; reflexivity.
Qed.





(** C1 fails on the code: for the three points (0,0,0), (1,0,0), (2,0,0),
    which are on one line, the function raises no error and returns a frame
    whose normal is undefined (0/0); in binary64 the normal is NaN. *)
Theorem calcCoordinateSystem_line_points_no_error :
  colinear line_points
  /\ (exists e1,
        calcCoordinateSystem (Some GREAT_double) (map inj line_points)
        = Ok (mkCoordinateSystem (inj (mkVector 0 0 0)%R) nanv (inj e1)))
  /\ calcCoordinateSystem (ops := Fops) GREAT_float line_points_float
     = Ok (mkCoordinateSystem (mkVector 0 0 0)%float
                              (mkVector nan nan nan)
                              (mkVector 1 0 0)%float).
Proof.
  split; [exact line_points_colinear |]. split.
  - destruct (calcCoordinateSystem_spread GREAT_double_pos
                (P := line_points) ltac:(simpl; lia) line_points_spread)
      as (p0 & e1 & i1 & m1 & i2 & m2 & p2 & H0 & _ & _ & _ & _ & _ & Hcol).
    injection H0 as <-. exists e1. apply Hcol. exact line_points_colinear.
  - vm_compute. reflexivity.
Qed.

(** ** The constructors *)

(** C8, as the code has it.  With fewer than three source points the
    constructor from [(sourcePoints, destPoints, perturb)], which derives
    the frame, ends in the first fatal error of [calcCoordinateSystem]; no
    frame is returned and [calcWeights] has not run: the generator of the
    process is as it was, not even seeded. *)
Theorem construct_insufficient_points (S : Type) (ops : ScalarOps S)
    (env : Collaborators S) (GREAT : S)
    (sourcePoints destPoints : list (vector S)) (perturb : S) (g : rndState) :
  (length sourcePoints < 3)%nat ->
  calcCoordinateSystem GREAT sourcePoints = FatalError InsufficientPointsError
  /\ construct GREAT sourcePoints destPoints perturb g
     = (FatalError InsufficientPointsError, g).
Proof.
  intros Hlen.
  assert (Hcs : calcCoordinateSystem GREAT sourcePoints
                = FatalError InsufficientPointsError).
  { unfold calcCoordinateSystem, size.
    destruct (Z.ltb_spec (Z.of_nat (length sourcePoints)) 3); [reflexivity | lia]. }
  split; [exact Hcs |]. unfold construct. rewrite Hcs. reflexivity.
Qed.

(** C8, as stated, fails for the constructor that is given a frame: it
    does not call [calcCoordinateSystem], checks no size, and from two
    source points goes through [calcWeights] (the generator is seeded and
    drawn from twice) and builds an engine with [nPoints_ = 2]. *)
Lemma construct_given_two_points :
  (length two_points < 3)%nat
  /\ exists e : engine R,
       construct_given (env := sample_env) sample_frame two_points sample_dest
         0%R 7%nat
       = (Ok e, Datatypes.S (Datatypes.S (Z.to_nat 123456)))
       /\ referenceCS_ e = sample_frame
       /\ nPoints_ e = 2%Z
       /\ length (nearestVertex_ e) = length sample_dest.
Proof.
  split; [simpl; lia |].
  eexists. split; [reflexivity |].
  split; [reflexivity |]. split; reflexivity.
Qed.

(** ** The weights of a point in a triangle *)









(** ** The weight table of an engine *)







Lemma construct_insufficient_points_witness :
  calcCoordinateSystem GREAT_double [mkVector 0 0 0; mkVector 1 0 0]%R
  = FatalError InsufficientPointsError
  /\ construct (env := sample_env) GREAT_double
       [mkVector 0 0 0; mkVector 1 0 0]%R sample_dest 0%R 7%nat
     = (FatalError InsufficientPointsError, 7%nat).
Proof.
  apply (@construct_insufficient_points R Rops sample_env GREAT_double
           [mkVector 0 0 0; mkVector 1 0 0]%R sample_dest 0%R 7%nat).
  simpl. lia.
Defined.

(** * Further properties *)

(** ** findTime: the indices it returns *)

Section FindTimeBounds.
Context {S : Type} {ops : ScalarOps S}.

(** Where the scan stops, in terms of the comparison the code makes. *)
Lemma findTime_loop_stop (v : S) (rest : list (instant S)) :
  forall i lo,
    (findTime_loop v rest i lo = lo
     /\ forall t, nth_error rest 0 = Some t -> sgtb (value t) v = true)
    \/ (exists k t,
          findTime_loop v rest i lo = (i + Z.of_nat k)%Z
          /\ nth_error rest k = Some t
          /\ (forall j tj, (j <= k)%nat -> nth_error rest j = Some tj ->
                           sgtb (value tj) v = false)
          /\ (forall t', nth_error rest (Datatypes.S k) = Some t' ->
                         sgtb (value t') v = true)).
Proof.
  induction rest as [| t rest IH]; intros i lo.
  - left. split; [reflexivity | intros t H; discriminate].
  - simpl findTime_loop. destruct (sgtb (value t) v) eqn:E.
    + left. split; [reflexivity |]. intros t0 H. injection H as <-. exact E.
    + right.
      destruct (IH (i + 1)%Z i) as [[Er Hhead] | (k & tk & Er & Hk & Hle & Hnext)].
      * exists 0%nat, t. rewrite Er. repeat split.
        -- lia.
        -- intros j tj Hj Hnth. assert (j = 0%nat) by lia. subst j.
           injection Hnth as <-. exact E.
        -- intros t' Hnth. apply Hhead. exact Hnth.
      * exists (Datatypes.S k), tk. rewrite Er. repeat split.
        -- lia.
        -- exact Hk.
        -- intros [| j] tj Hj Hnth.
           ++ injection Hnth as <-. exact E.
           ++ apply (Hle j); [lia | exact Hnth].
        -- exact Hnext.
Qed.

(** [findTime], unfolded for a hint of [-1] or more. *)
Lemma findTime_eq (times : list (instant S)) (hint : Z) (v : S) :
  (-1 <= hint)%Z ->
  findTime times hint v
  = let lo := findTime_loop v (skipn (Z.to_nat (hint + 1)) times) (hint + 1) hint in
    if (lo =? -1)%Z then Some (false, lo, (-1)%Z)
    else Some (true, lo, if (lo <? size times - 1)%Z then (lo + 1)%Z else (-1)%Z).
Proof.
  intros Hh. unfold findTime.
  destruct (Z.ltb_spec (hint + 1) 0) as [Hn | Hn]; [lia | reflexivity].
Qed.

(** The final [lo], for a hint of [-1] or more: either the hint, with the
    entry after it (if any) greater than [v]; or an index above the hint,
    with no entry from the hint to it greater than [v] and the entry after
    it (if any) greater than [v]. *)
Lemma findTime_lo_stop (times : list (instant S)) (hint : Z) (v : S) :
  (-1 <= hint)%Z ->
  forall lo,
    findTime_loop v (skipn (Z.to_nat (hint + 1)) times) (hint + 1) hint = lo ->
    (lo = hint \/ ((hint < lo)%Z /\ (lo < size times)%Z))
    /\ (forall j t, (hint < j <= lo)%Z -> at_label times j = Some t ->
                    sgtb (value t) v = false)
    /\ (forall t, at_label times (lo + 1) = Some t -> sgtb (value t) v = true).
Proof.
  intros Hh lo Elo. set (n := Z.to_nat (hint + 1)) in *.
  assert (Hsk : forall k, nth_error (skipn n times) k = nth_error times (n + k))
    by (intros k; apply nth_error_skipn).
  assert (Hat : forall k t, at_label times (hint + 1 + Z.of_nat k) = Some t ->
                            nth_error (skipn n times) k = Some t).
  { intros k t H. rewrite Hsk.
    replace (hint + 1 + Z.of_nat k)%Z with (Z.of_nat (n + k)) in H by lia.
    rewrite at_label_nth in H. exact H. }
  destruct (findTime_loop_stop v (skipn n times) (hint + 1) hint)
    as [[Er Hhead] | (k & tk & Er & Hk & Hle & Hnext)]; rewrite Er in Elo; subst lo.
  - split; [now left |]. split.
    + intros j t Hj. lia.
    + intros t Ht. apply Hhead. apply Hat.
      replace (hint + 1 + Z.of_nat 0)%Z with (hint + 1)%Z by lia. exact Ht.
  - split; [| split].
    + right. split; [lia |].
      assert (Hlt : (k < length (skipn n times))%nat)
        by (apply nth_error_Some; congruence).
      rewrite length_skipn in Hlt. unfold size. lia.
    + intros j t Hj Ht.
      apply (Hle (Z.to_nat (j - (hint + 1)))); [lia |].
      apply Hat. replace (hint + 1 + Z.of_nat (Z.to_nat (j - (hint + 1))))%Z with j by lia.
      exact Ht.
    + intros t Ht. apply Hnext. apply Hat.
      replace (hint + 1 + Z.of_nat (Datatypes.S k))%Z
        with (hint + 1 + Z.of_nat k + 1)%Z by lia.
      exact Ht.
Qed.

End FindTimeBounds.

(** X1.  With a hint that is [-1] or an index of the series, [findTime]
    returns indices that can be used: [lo] is at or above the hint and
    below the size, it is [-1] exactly when [false] is returned, and [hi] is
    either [-1] or the index [lo + 1] of the series. *)
Theorem findTime_indices_in_range (S : Type) (ops : ScalarOps S)
    (times : list (instant S)) (hint : Z) (v : S) :
  (-1 <= hint < size times)%Z ->
  exists found lo hi,
    findTime times hint v = Some (found, lo, hi)
    /\ (hint <= lo < size times)%Z
    /\ (found = false <-> lo = (-1)%Z)
    /\ (hi = (-1)%Z \/ (hi = (lo + 1)%Z /\ (0 <= hi < size times)%Z)).
Proof.
  intros Hh. rewrite findTime_eq by lia. cbv zeta.
  destruct (@findTime_lo_stop S ops times hint v ltac:(lia) _ eq_refl) as (Hlo & _ & _).
  set (lo := findTime_loop v _ _ _) in *.
  assert (Hr : (hint <= lo < size times)%Z) by (destruct Hlo as [-> | ?]; lia).
  destruct (Z.eqb_spec lo (-1)) as [E | E].
  - exists false, lo, (-1)%Z. split; [reflexivity |]. split; [exact Hr |].
    split; [split; auto | now left].
  - exists true, lo, (if (lo <? size times - 1)%Z then (lo + 1)%Z else (-1)%Z).
    split; [reflexivity |]. split; [exact Hr |]. split.
    + split; [discriminate | intros; contradiction].
    + destruct (Z.ltb_spec lo (size times - 1)); [right; lia | now left].
Qed.

Lemma findTime_indices_in_range_witness :
  exists found lo hi,
    findTime sample_times 1 3%R = Some (found, lo, hi)
    /\ (1 <= lo < size sample_times)%Z
    /\ (found = false <-> lo = (-1)%Z)
    /\ (hi = (-1)%Z \/ (hi = (lo + 1)%Z /\ (0 <= hi < size sample_times)%Z)).
Proof.
  apply (@findTime_indices_in_range R Rops sample_times 1%Z 3%R).
  unfold size. simpl. lia.
Defined.

(** X2.  With [debug] off and a hint at or beyond the size of the series
    and below the largest label, so that [startSampleTime+1] does not
    overflow, nothing is read and [findTime] returns [true] with [lo] the
    hint, which is not an index of the series, and [hi = -1]. *)
Theorem findTime_hint_beyond_end (S : Type) (ops : ScalarOps S)
    (times : list (instant S)) (hint : Z) (v : S) :
  (size times <= hint < labelMax)%Z ->
  findTime times hint v = Some (true, hint, (-1)%Z)
  /\ at_label times hint = None.
Proof.
  intros [Hh _]. assert (H0 : (0 <= size times)%Z) by (unfold size; lia). split.
  - rewrite findTime_eq by lia. cbv zeta.
    rewrite skipn_all2 by (unfold size in Hh; lia). simpl findTime_loop.
    destruct (Z.eqb_spec hint (-1)) as [E | E]; [lia |].
    destruct (Z.ltb_spec hint (size times - 1)); [lia | reflexivity].
  - unfold at_label. destruct (Z.ltb_spec hint 0); [reflexivity |].
    apply nth_error_None. unfold size in Hh. lia.
Qed.

Lemma findTime_hint_beyond_end_witness :
  findTime sample_times 4 3%R = Some (true, 4%Z, (-1)%Z)
  /\ at_label sample_times 4 = None.
Proof.
  apply (@findTime_hint_beyond_end R Rops sample_times 4%Z 3%R).
  unfold size, labelMax. simpl. lia.
Defined.

(** X3.  The bracket is tight in the comparison the code makes: no entry
    above the hint and up to [lo] is greater than the query value, and when
    [hi] is not [-1] the entry at [hi] is greater than it.  This needs no
    order on the series. *)
Theorem findTime_bracket_tight (S : Type) (ops : ScalarOps S)
    (times : list (instant S)) (hint : Z) (v : S) (found : bool) (lo hi : Z) :
  (-1 <= hint)%Z ->
  findTime times hint v = Some (found, lo, hi) ->
  (forall j t, (hint < j <= lo)%Z -> at_label times j = Some t ->
               sgtb (value t) v = false)
  /\ (hi <> (-1)%Z ->
      exists t, at_label times hi = Some t /\ sgtb (value t) v = true).
Proof.
  intros Hh H. rewrite findTime_eq in H by lia. cbv zeta in H.
  destruct (@findTime_lo_stop S ops times hint v Hh _ eq_refl) as (Hlo & Hle & Hnext).
  set (l := findTime_loop v _ _ _) in *.
  destruct (Z.eqb_spec l (-1)) as [E | E]; injection H as <- <- <-.
  - split; [exact Hle | intros Hc; now contradiction Hc].
  - split; [exact Hle |]. intros Hhi.
    destruct (Z.ltb_spec l (size times - 1)) as [Hlt | Hge]; [| now contradiction Hhi].
    assert (Hin : (0 <= l + 1 < size times)%Z) by (destruct Hlo as [-> | ?]; lia).
    destruct (at_label (A := instant S) times (l + 1)) as [t |] eqn:Et.
    + exists t. split; [reflexivity | now apply Hnext].
    + exfalso. unfold at_label in Et.
      destruct (Z.ltb_spec (l + 1) 0); [lia |].
      apply nth_error_None in Et. unfold size in Hin. lia.
Qed.

Lemma findTime_bracket_tight_witness :
  (forall j t, (0 < j <= 2)%Z -> at_label sample_times j = Some t ->
               sgtb (value t) 3%R = false)
  /\ (3%Z <> (-1)%Z ->
      exists t, at_label sample_times 3 = Some t /\ sgtb (value t) 3%R = true).
Proof.
  apply (@findTime_bracket_tight R Rops sample_times 0%Z 3%R true 2%Z 3%Z).
  - lia.
  - exact findTime_sample_3.
Defined.

(** X4.  When no entry above the hint is greater than the query value
    (a query at or past the end of the series, or a NaN query), [findTime]
    returns the last index with [hi = -1]; on the empty series with hint
    [-1] it returns [false]. *)
Theorem findTime_past_the_end (S : Type) (ops : ScalarOps S)
    (times : list (instant S)) (hint : Z) (v : S) :
  (-1 <= hint < size times)%Z ->
  (forall j t, (hint < j)%Z -> at_label times j = Some t ->
               sgtb (value t) v = false) ->
  findTime times hint v
  = if (size times =? 0)%Z then Some (false, (-1)%Z, (-1)%Z)
    else Some (true, (size times - 1)%Z, (-1)%Z).
Proof.
  intros Hh Hall. rewrite findTime_eq by lia. cbv zeta.
  destruct (@findTime_lo_stop S ops times hint v ltac:(lia) _ eq_refl)
    as (Hlo & _ & Hnext).
  set (lo := findTime_loop v _ _ _) in *.
  assert (Hr : (hint <= lo < size times)%Z) by (destruct Hlo as [-> | ?]; lia).
  assert (Hlast : lo = (size times - 1)%Z).
  { destruct (Z_lt_le_dec (lo + 1) (size times)) as [Hlt | Hge]; [| lia].
    exfalso.
    destruct (at_label (A := instant S) times (lo + 1)) as [t |] eqn:Et.
    - pose proof (Hnext t eq_refl) as Ht.
      rewrite (Hall (lo + 1)%Z t ltac:(lia) Et) in Ht. discriminate.
    - unfold at_label in Et. destruct (Z.ltb_spec (lo + 1) 0); [lia |].
      apply nth_error_None in Et. unfold size in Hlt. lia. }
  rewrite Hlast.
  destruct (Z.eqb_spec (size times) 0) as [E0 | E0].
  - rewrite E0. reflexivity.
  - destruct (Z.eqb_spec (size times - 1) (-1)); [lia |].
    destruct (Z.ltb_spec (size times - 1) (size times - 1)); [lia | reflexivity].
Qed.

Lemma findTime_past_the_end_witness :
  findTime sample_times 0 6%R
  = if (size sample_times =? 0)%Z then Some (false, (-1)%Z, (-1)%Z)
    else Some (true, (size sample_times - 1)%Z, (-1)%Z).
Proof.
  apply (@findTime_past_the_end R Rops sample_times 0%Z 6%R).
  - unfold size. simpl. lia.
  - intros j t _ H.
    apply (@at_label_Forall _ (fun t => sgtb (value t) 6%R = false) sample_times j);
      [| exact H].
    repeat constructor; simpl; apply Rgtb_false; lra.
Defined.

(** ** findTime: reusing the bracket as the next hint *)

(** A scan for [v2] from [lo] passes where the scan for a smaller [v1]
    stopped and goes on from there. *)
Lemma findTime_loop_resume (v1 v2 : R) (rest : list (instant R)) :
  (v1 <= v2)%R ->
  forall lo,
    findTime_loop v2 rest (lo + 1) lo
    = findTime_loop v2
        (skipn (Z.to_nat (findTime_loop v1 rest (lo + 1) lo - lo)) rest)
        (findTime_loop v1 rest (lo + 1) lo + 1)
        (findTime_loop v1 rest (lo + 1) lo).
Proof.
  intros Hv. induction rest as [| t rest IH]; intros lo.
  - simpl. destruct (Z.to_nat (lo - lo)); reflexivity.
  - assert (E1 : findTime_loop v1 (t :: rest) (lo + 1) lo
                 = if Rgtb (value t) v1 then lo
                   else findTime_loop v1 rest (lo + 1 + 1) (lo + 1)) by reflexivity.
    assert (E2 : findTime_loop v2 (t :: rest) (lo + 1) lo
                 = if Rgtb (value t) v2 then lo
                   else findTime_loop v2 rest (lo + 1 + 1) (lo + 1)) by reflexivity.
    rewrite E1.
    destruct (Rgtb_cases (value t) v1) as [[E Ht] | [E Ht]]; rewrite E.
    + rewrite Z.sub_diag. reflexivity.
    + rewrite E2, (@Rgtb_false (value t) v2) by lra.
      assert (Hge : (lo + 1 <= findTime_loop v1 rest (lo + 1 + 1) (lo + 1))%Z)
        by (apply findTime_loop_ge; lia).
      rewrite (IH (lo + 1)%Z).
      set (r := findTime_loop v1 rest (lo + 1 + 1) (lo + 1)) in *.
      replace (Z.to_nat (r - lo)) with (Datatypes.S (Z.to_nat (r - (lo + 1)))) by lia.
      reflexivity.
Qed.

(** X5.  Reusing a bracket is sound for queries that do not decrease: if a
    call with hint [hint] and value [v1] returned [lo], then for [v2 >= v1]
    the call with hint [lo] returns what the call with the first hint
    returns, and the [lo] for [v2] is at or above the [lo] for [v1].  This
    needs no order on the series. *)
Theorem findTime_hint_reuse (times : list (instant R)) (hint : Z) (v1 v2 : R)
    (found : bool) (lo hi : Z) :
  (-1 <= hint)%Z ->
  findTime times hint v1 = Some (found, lo, hi) ->
  (v1 <= v2)%R ->
  findTime times lo v2 = findTime times hint v2
  /\ (forall found2 lo2 hi2,
        findTime times hint v2 = Some (found2, lo2, hi2) -> (lo <= lo2)%Z).
Proof.
  intros Hh H1 Hv.
  pose proof (findTime_lo_ge _ _ _ H1) as Hge.
  assert (Heq : findTime times lo v2 = findTime times hint v2).
  { rewrite findTime_eq in H1 by lia. cbv zeta in H1.
    assert (Hlo : findTime_loop v1 (skipn (Z.to_nat (hint + 1)) times) (hint + 1) hint = lo).
    { destruct (_ =? -1)%Z; injection H1 as _ Hlo _; exact Hlo. }
    rewrite (findTime_eq times v2 (hint := lo)) by lia.
    rewrite (findTime_eq times v2 (hint := hint)) by lia. cbv zeta.
    rewrite (findTime_loop_resume (skipn (Z.to_nat (hint + 1)) times) Hv hint).
    rewrite Hlo, skipn_skipn.
    replace (Z.to_nat (lo - hint) + Z.to_nat (hint + 1))%nat
      with (Z.to_nat (lo + 1)) by lia.
    reflexivity. }
  split; [exact Heq |].
  intros found2 lo2 hi2 H2. rewrite <- Heq in H2.
  exact (findTime_lo_ge _ _ _ H2).
Qed.

Lemma findTime_hint_reuse_witness :
  findTime sample_times 2 6%R = findTime sample_times 0 6%R
  /\ (forall found2 lo2 hi2,
        findTime sample_times 0 6%R = Some (found2, lo2, hi2) -> (2 <= lo2)%Z).
Proof.
  apply (@findTime_hint_reuse sample_times 0%Z 3%R 6%R true 2%Z 3%Z).
  - lia.
  - exact findTime_sample_3.
  - lra.
Defined.

(** ** timeNames *)

Lemma set_label_middle (A : Type) (pre post : list A) (x a : A) :
  set_label (pre ++ x :: post) (Z.of_nat (length pre)) a = Some (pre ++ a :: post).
Proof.
  unfold set_label, size. rewrite length_app. simpl length.
  destruct (Z.ltb_spec (Z.of_nat (length pre)) 0) as [H | H]; [lia |].
  destruct (Z.leb_spec (Z.of_nat (length pre + Datatypes.S (length post)))
              (Z.of_nat (length pre))) as [H' | H']; [lia |].
  simpl orb. cbv iota. rewrite Nat2Z.id. f_equal.
  rewrite firstn_app, firstn_all, Nat.sub_diag. simpl firstn. rewrite app_nil_r.
  f_equal. f_equal.
  rewrite skipn_app, skipn_all2 by lia.
  replace (Datatypes.S (length pre) - length pre)%nat with 1%nat by lia.
  reflexivity.
Qed.

(** The loop of [timeNames], started after the entries [pre] have been
    written. *)
Lemma timeNames_fold (S : Type) (rest : list (instant S)) :
  forall pre : list String.string,
    fold_left (@timeNames_step S)
      (enum_from (Z.of_nat (length pre)) rest)
      (Some (pre ++ repeat String.EmptyString (length rest)))
    = Some (pre ++ map (@name S) rest).
Proof.
  induction rest as [| t rest IH]; intros pre; [reflexivity |].
  cbn [enum_from fold_left length repeat map]. unfold timeNames_step at 2.
  cbn [fst snd]. rewrite set_label_middle.
  replace (Z.of_nat (length pre) + 1)%Z
    with (Z.of_nat (length (pre ++ [name t])))
    by (rewrite length_app; simpl; lia).
  replace (pre ++ name t :: repeat String.EmptyString (length rest))
    with ((pre ++ [name t]) ++ repeat String.EmptyString (length rest))
    by (rewrite <- app_assoc; reflexivity).
  rewrite IH, <- app_assoc. reflexivity.
Qed.

(** X6.  [timeNames] writes every entry inside the list it allocated and
    returns the names of the instants in the order of the series: as many
    names as instants, entry [i] being the name of [times[i]]. *)
Theorem timeNames_names (S : Type) (times : list (instant S)) :
  timeNames times = Some (map (@name S) times)
  /\ (forall names, timeNames times = Some names ->
        length names = length times
        /\ forall i, at_label names i = option_map (@name S) (at_label times i)).
Proof.
  assert (H : timeNames times = Some (map (@name S) times))
    by (exact (timeNames_fold times [])).
  split; [exact H |]. intros names Hn. rewrite H in Hn. injection Hn as <-.
  split; [apply length_map |]. intros i. unfold at_label.
  destruct (i <? 0)%Z; [reflexivity | apply nth_error_map].
Qed.

(** ** calcCoordinateSystem: how it ends *)

Lemma calcCoordinateSystem_short (S : Type) (ops : ScalarOps S) (G : S)
    (points : list (vector S)) :
  (length points < 3)%nat ->
  calcCoordinateSystem G points = FatalError InsufficientPointsError.
Proof.
  intros H. unfold calcCoordinateSystem, size.
  destruct (Z.ltb_spec (Z.of_nat (length points)) 3); [reflexivity | lia].
Qed.

(** With three points or more, either all are at [P[0]] and the function
    ends in the second fatal error, or they are not and it returns a
    frame. *)
Lemma calcCoordinateSystem_cases (G : R) (P : list (vector R)) :
  (0 < G)%R ->
  (3 <= length P)%nat ->
  (~ spread P
   /\ calcCoordinateSystem (Some G) (map inj P) = FatalError DegenerateGeometryError)
  \/ (spread P /\ exists cs, calcCoordinateSystem (Some G) (map inj P) = Ok cs).
Proof.
  intros HG Hlen.
  destruct (three_points P Hlen) as (p0 & rest & E & Hrest).
  destruct (calcCoordinateSystem_spec p0 rest HG Hrest)
    as (j1 & p1 & Hj1 & Hfar & _ & [[Hz Hcs] | (Hd & _)]).
  - left. subst P. split; [| exact Hcs].
    intros (q & [<- | Hq] & Hne); [now apply Hne |].
    apply Hne. change (Some p0 = Some q). f_equal. symmetry. apply dist_zero_eq.
    specialize (Hfar q Hq). pose proof (dist_nonneg p0 q). lra.
  - right. assert (Hsp : spread P).
    { subst P. exists p1. split.
      - right. eapply nth_error_In. exact Hj1.
      - intros Eq. injection Eq as <-. rewrite dist_self in Hd. lra. }
    split; [exact Hsp |].
    destruct (calcCoordinateSystem_spread HG Hlen Hsp)
      as (q0 & e1 & i1 & m1 & i2 & m2 & p2 & _ & _ & _ & _ & _ & Hcs & _).
    eexists. exact Hcs.
Qed.

(** X7.  In exact arithmetic, on points with defined coordinates
    [calcCoordinateSystem] never reads outside the list nor uses [e1]
    unassigned, and how it ends is settled by the points alone: the first fatal error exactly for fewer
    than three points, the second exactly for three or more points all at
    [P[0]], and a frame exactly for three or more points of which one is
    not at [P[0]]. *)
Theorem calcCoordinateSystem_outcome (G : R) (P : list (vector R)) :
  (0 < G)%R ->
  calcCoordinateSystem (Some G) (map inj P) <> Undefined
  /\ (calcCoordinateSystem (Some G) (map inj P) = FatalError InsufficientPointsError
      <-> (length P < 3)%nat)
  /\ (calcCoordinateSystem (Some G) (map inj P) = FatalError DegenerateGeometryError
      <-> (3 <= length P)%nat /\ ~ spread P)
  /\ ((exists cs, calcCoordinateSystem (Some G) (map inj P) = Ok cs)
      <-> (3 <= length P)%nat /\ spread P).
Proof.
  intros HG.
  destruct (Nat.lt_ge_cases (length P) 3) as [Hs | Hl].
  - assert (H : calcCoordinateSystem (Some G) (map inj P)
                = FatalError InsufficientPointsError)
      by (apply calcCoordinateSystem_short; rewrite length_map; exact Hs).
    rewrite H. split; [discriminate |]. split; [tauto |]. split.
    + split; [discriminate | intros [? _]; lia].
    + split; [intros [cs Hc]; discriminate | intros [? _]; lia].
  - destruct (@calcCoordinateSystem_cases G P HG Hl) as [[Hns H] | [Hsp [cs H]]];
      rewrite H.
    + split; [discriminate |]. split; [split; [discriminate | lia] |]. split.
      * tauto.
      * split; [intros [cs Hc]; discriminate | tauto].
    + split; [discriminate |]. split; [split; [discriminate | lia] |]. split.
      * split; [discriminate | tauto].
      * split; [tauto | intros _; now exists cs].
Qed.

Lemma calcCoordinateSystem_outcome_witness :
  calcCoordinateSystem (Some GREAT_double) (map inj square_points) <> Undefined
  /\ (calcCoordinateSystem (Some GREAT_double) (map inj square_points)
      = FatalError InsufficientPointsError
      <-> (length square_points < 3)%nat)
  /\ (calcCoordinateSystem (Some GREAT_double) (map inj square_points)
      = FatalError DegenerateGeometryError
      <-> (3 <= length square_points)%nat /\ ~ spread square_points)
  /\ ((exists cs, calcCoordinateSystem (Some GREAT_double) (map inj square_points) = Ok cs)
      <-> (3 <= length square_points)%nat /\ spread square_points).
Proof.
  apply (@calcCoordinateSystem_outcome GREAT_double square_points).
  unfold GREAT_double. lra.
Defined.

(** ** calcCoordinateSystem: points in a plane *)

(** Three vectors orthogonal to one non-null vector have a null triple
    product. *)
Lemma triple_product_zero (a b c n : vector R) :
  (vx n <> 0 \/ vy n <> 0 \/ vz n <> 0)%R ->
  dot n a = 0%R -> dot n b = 0%R -> dot n c = 0%R ->
  dot (cross a b) c = 0%R.
Proof.
  intros Hn Ha Hb Hc.
  destruct a as [a1 a2 a3], b as [b1 b2 b3], c as [c1 c2 c3], n as [n1 n2 n3].
  vec_unfold. simpl in *.
  set (D := ((a2 * b3 - a3 * b2) * c1 + (a3 * b1 - a1 * b3) * c2
             + (a1 * b2 - a2 * b1) * c3)%R).
  assert (H1 : (D * n1 = 0)%R).
  { replace (D * n1)%R
      with ((n1 * a1 + n2 * a2 + n3 * a3) * (b2 * c3 - b3 * c2)
            + (n1 * b1 + n2 * b2 + n3 * b3) * (c2 * a3 - c3 * a2)
            + (n1 * c1 + n2 * c2 + n3 * c3) * (a2 * b3 - a3 * b2))%R
      by (unfold D; ring).
    rewrite Ha, Hb, Hc. ring. }
  assert (H2 : (D * n2 = 0)%R).
  { replace (D * n2)%R
      with ((n1 * a1 + n2 * a2 + n3 * a3) * (b3 * c1 - b1 * c3)
            + (n1 * b1 + n2 * b2 + n3 * b3) * (c3 * a1 - c1 * a3)
            + (n1 * c1 + n2 * c2 + n3 * c3) * (a3 * b1 - a1 * b3))%R
      by (unfold D; ring).
    rewrite Ha, Hb, Hc. ring. }
  assert (H3 : (D * n3 = 0)%R).
  { replace (D * n3)%R
      with ((n1 * a1 + n2 * a2 + n3 * a3) * (b1 * c2 - b2 * c1)
            + (n1 * b1 + n2 * b2 + n3 * b3) * (c1 * a2 - c2 * a1)
            + (n1 * c1 + n2 * c2 + n3 * c3) * (a1 * b2 - a2 * b1))%R
      by (unfold D; ring).
    rewrite Ha, Hb, Hc. ring. }
  destruct Hn as [Hn | [Hn | Hn]].
  - destruct (Rmult_integral _ _ H1) as [E | E]; [exact E | contradiction].
  - destruct (Rmult_integral _ _ H2) as [E | E]; [exact E | contradiction].
  - destruct (Rmult_integral _ _ H3) as [E | E]; [exact E | contradiction].
Qed.

Lemma dot_cross_vdivs (d w u : vector R) (m : R) :
  dot (cross (vdivs d m) w) u = (dot (cross d w) u / m)%R.
Proof. destruct d, w, u. vec_unfold. simpl. unfold Rdiv. ring. Qed.

Lemma dot_vsub_plane (n0 a p q : vector R) :
  dot n0 (vsub p a) = 0%R -> dot n0 (vsub q a) = 0%R -> dot n0 (vsub q p) = 0%R.
Proof. destruct n0, a, p, q. vec_unfold. simpl. intros H1 H2. lra. Qed.

(** X8.  For three points or more that lie in one plane and not on one
    line, the frame is that plane: the offset of every point from the
    origin of the frame is orthogonal to its normal. *)
Theorem calcCoordinateSystem_coplanar (G : R) (P : list (vector R)) :
  (0 < G)%R ->
  (3 <= length P)%nat ->
  ~ colinear P ->
  coplanar P ->
  exists cs,
    calcCoordinateSystem (Some G) (map inj P) = Ok cs
    /\ forall q, In q P ->
         dot (normal cs) (vsub (inj q) (origin cs)) = Some 0%R.
Proof.
  intros HG Hlen Hnc (a & n0 & Hn0 & Hplane).
  destruct (three_points P Hlen) as (p0 & rest & -> & Hrest).
  destruct (calcCoordinateSystem_spec p0 rest HG Hrest)
    as (j1 & p1 & Hj1 & Hfar & _ & [[Hz _] | (_ & j2 & p2 & Hj2 & _ & Hoff & _ & Hcs)]).
  - exfalso. apply Hnc. apply colinear_coincident. intros q Hq.
    specialize (Hfar q Hq). pose proof (dist_nonneg p0 q). lra.
  - destruct (not_colinear_spread p2 Hnc Hj1 Hfar Hoff) as [Hd Ho].
    set (e1 := vdivs (vsub p1 p0) (dist p0 p1)) in *.
    assert (He1 : magSqr e1 = 1%R) by (apply magSqr_vdivs_mag; exact Hd).
    set (n := cross e1 (vsub p2 p0)).
    assert (Hn : mag n = off p0 e1 p2) by (apply mag_cross_off; exact He1).
    rewrite cross_inj in Hcs. fold n in Hcs.
    rewrite normalised_inj in Hcs by lra.
    eexists. split; [exact Hcs |]. intros q Hq. simpl normal. simpl origin.
    change (Some (dot (vdivs n (mag n)) (vsub q p0)) = Some 0%R). f_equal.
    rewrite dot_vdivs_left by lra.
    assert (Hin0 : In p0 (p0 :: rest)) by now left.
    assert (Hin1 : In p1 (p0 :: rest)) by (right; eapply nth_error_In; exact Hj1).
    assert (Hin2 : In p2 (p0 :: rest)) by (right; eapply nth_error_In; exact Hj2).
    assert (Ht : dot n (vsub q p0) = 0%R).
    { unfold n, e1. rewrite dot_cross_vdivs.
      rewrite (@triple_product_zero (vsub p1 p0) (vsub p2 p0) (vsub q p0) n0 Hn0).
      - unfold Rdiv. ring.
      - apply (@dot_vsub_plane n0 a); now apply Hplane.
      - apply (@dot_vsub_plane n0 a); now apply Hplane.
      - apply (@dot_vsub_plane n0 a); now apply Hplane. }
    rewrite Ht. field. lra.
Qed.

Lemma square_points_not_colinear : ~ colinear square_points.
Proof.
  intros (a & u & Hline).
  destruct (Hline (mkVector 0 0 0)%R) as [t0 H0]; [simpl; auto |].
  destruct (Hline (mkVector 1 0 0)%R) as [t1 H1]; [simpl; auto |].
  destruct (Hline (mkVector 0 1 0)%R) as [t2 H2]; [simpl; auto |].
  destruct a as [ax ay az], u as [ux uy uz]. vec_unfold.
  injection H0 as H0x H0y H0z. injection H1 as H1x H1y H1z.
  injection H2 as H2x H2y H2z.
  assert (Hx : ((t1 - t0) * ux = 1)%R) by lra.
  assert (Hy : ((t1 - t0) * uy = 0)%R) by lra.
  assert (Hx2 : ((t2 - t0) * ux = 0)%R) by lra.
  assert (Hy2 : ((t2 - t0) * uy = 1)%R) by lra.
  nra.
Qed.

Lemma square_points_coplanar : coplanar square_points.
Proof.
  exists (mkVector 0 0 0)%R, (mkVector 0 0 1)%R. split.
  - right. right. simpl. lra.
  - intros p Hp. simpl in Hp.
    destruct Hp as [<- | [<- | [<- | [<- | [<- | []]]]]]; vec_unfold; simpl; lra.
Qed.

Lemma calcCoordinateSystem_coplanar_witness :
  exists cs,
    calcCoordinateSystem (Some GREAT_double) (map inj square_points) = Ok cs
    /\ forall q, In q square_points ->
         dot (normal cs) (vsub (inj q) (origin cs)) = Some 0%R.
Proof.
  apply (@calcCoordinateSystem_coplanar GREAT_double square_points).
  - unfold GREAT_double. lra.
  - simpl. lia.
  - exact square_points_not_colinear.
  - exact square_points_coplanar.
Defined.

(** ** calcCoordinateSystem: moving the points *)

Lemma vsub_translate (p p0 t : vector R) :
  vsub (vadd p t) (vadd p0 t) = vsub p p0.
Proof. destruct p, p0, t. vec_unfold. simpl. f_equal; ring. Qed.

Lemma furthest_fold_translate (p0 t : vector R) (l : list (vector R)) :
  forall (k : Z) (st : option (vector XR) * Z * XR),
    fold_left (furthest_step (inj (vadd p0 t))) (enum_from k (map inj (translate t l))) st
    = fold_left (furthest_step (inj p0)) (enum_from k (map inj l)) st.
Proof.
  induction l as [| p l IH]; intros k st; [reflexivity |].
  cbn [translate map enum_from fold_left]. fold (translate t l).
  replace (furthest_step (inj (vadd p0 t)) st (k, inj (vadd p t)))
    with (furthest_step (inj p0) st (k, inj p)); [apply IH |].
  unfold furthest_step. destruct st as [[e i] m].
  rewrite !vsub_inj, vsub_translate. reflexivity.
Qed.

Lemma offLine_fold_translate (p0 t : vector R) (e1 : vector XR) (index1 : Z)
    (l : list (vector R)) :
  forall (k : Z) (st : Z * XR),
    fold_left (offLine_step (inj (vadd p0 t)) e1 index1)
              (enum_from k (map inj (translate t l))) st
    = fold_left (offLine_step (inj p0) e1 index1) (enum_from k (map inj l)) st.
Proof.
  induction l as [| p l IH]; intros k st; [reflexivity |].
  cbn [translate map enum_from fold_left]. fold (translate t l).
  replace (offLine_step (inj (vadd p0 t)) e1 index1 st (k, inj (vadd p t)))
    with (offLine_step (inj p0) e1 index1 st (k, inj p)); [apply IH |].
  unfold offLine_step, offLine. destruct st as [i m]. cbv beta iota zeta.
  rewrite (vsub_inj (vadd p t) (vadd p0 t)), (vsub_inj p p0), vsub_translate.
  reflexivity.
Qed.

Lemma at_label_map (A B : Type) (f : A -> B) (l : list A) (i : Z) :
  at_label (map f l) i = option_map f (at_label l i).
Proof.
  unfold at_label. destruct (i <? 0)%Z; [reflexivity | apply nth_error_map].
Qed.

(** X9.  Moving all points by one vector moves the origin of the frame by
    that vector and changes neither its axis nor its normal, nor the error
    the function ends in. *)
Theorem calcCoordinateSystem_translate (GREAT : XR) (t : vector R)
    (P : list (vector R)) :
  calcCoordinateSystem GREAT (map inj (translate t P))
  = match calcCoordinateSystem GREAT (map inj P) with
    | Ok cs => Ok (mkCoordinateSystem (vadd (origin cs) (inj t)) (normal cs) (axis cs))
    | FatalError e => FatalError e
    | Undefined => Undefined
    end.
Proof.
  destruct P as [| p0 rest]; [reflexivity |].
  unfold calcCoordinateSystem.
  replace (size (map inj (translate t (p0 :: rest))))
    with (size (map inj (p0 :: rest)))
    by (unfold size, translate; rewrite !length_map; reflexivity).
  destruct (size (map inj (p0 :: rest)) <? 3)%Z; [reflexivity |].
  change (at_label (map inj (translate t (p0 :: rest))) 0)
    with (Some (inj (vadd p0 t))).
  change (at_label (map inj (p0 :: rest)) 0) with (Some (inj p0)).
  cbv beta iota. unfold furthest_loop, offLine_loop.
  change (tl (map inj (translate t (p0 :: rest)))) with (map inj (translate t rest)).
  change (tl (map inj (p0 :: rest))) with (map inj rest).
  rewrite furthest_fold_translate.
  destruct (fold_left (furthest_step (inj p0)) (enum_from 1 (map inj rest))
              (None, (-1)%Z, sneg GREAT)) as [[e1 index1] m1].
  unfold translate at 1. rewrite map_map, !at_label_map.
  destruct (at_label (p0 :: rest) index1) as [p1 |]; simpl option_map;
    [| reflexivity].
  destruct e1 as [e1 |]; [| reflexivity].
  rewrite offLine_fold_translate.
  destruct (fold_left (offLine_step (inj p0) e1 index1) (enum_from 1 (map inj rest))
              ((-1)%Z, sneg GREAT)) as [index2 m2].
  destruct (index2 =? -1)%Z; [reflexivity |].
  unfold translate. rewrite map_map, !at_label_map.
  destruct (at_label (p0 :: rest) index2) as [p2 |]; simpl option_map;
    [| reflexivity].
  cbv beta iota. cbn [origin normal axis].
  rewrite (vsub_inj (vadd p2 t) (vadd p0 t)), (vsub_inj p2 p0), vsub_translate.
  reflexivity.
Qed.

(** ** calcCoordinateSystem: which points it takes *)

(** The first loop keeps the first of the points that are furthest: every
    point it passed before the one it stops on is strictly nearer. *)
Lemma furthest_fold_first (p0 : vector R) (l : list (vector R)) :
  forall (k : Z) (e : option (vector XR)) (i : Z) (m : R)
         (e' : option (vector XR)) (i' : Z) (m' : R),
    (i < k)%Z ->
    fold_left (furthest_step (inj p0)) (enum_from k (map inj l)) (e, i, Some m)
    = (e', i', Some m') ->
    forall j q, nth_error l j = Some q -> (k + Z.of_nat j < i')%Z ->
                (dist p0 q < m')%R.
Proof.
  induction l as [| p l IH]; intros k e i m e' i' m' Hik Hfold j q Hq Hj.
  - destruct j; discriminate.
  - cbn [map enum_from fold_left] in Hfold. rewrite furthest_step_inj in Hfold.
    destruct j as [| j].
    + injection Hq as ->.
      destruct (Rgtb_cases (dist p0 q) m) as [[E Hd] | [E Hd]]; rewrite E in Hfold.
      * destruct (furthest_fold p0 l (k + 1)
                    (Some (vdivs (inj (vsub q p0)) (Some (dist p0 q)))) k (dist p0 q))
          as (e2 & i2 & m2 & Hf2 & [(_ & Hi & _ & _) | (jx & px & _ & _ & Hm & Hlt & _)]);
          rewrite Hf2 in Hfold; injection Hfold as _ Ei Em; subst; [lia | lra].
      * destruct (furthest_fold p0 l (k + 1) e i m)
          as (e2 & i2 & m2 & Hf2 & [(_ & Hi & _ & _) | (jx & px & _ & _ & Hm & Hlt & _)]);
          rewrite Hf2 in Hfold; injection Hfold as _ Ei Em; subst; [lia | lra].
    + simpl in Hq.
      destruct (Rgtb (dist p0 p) m).
      * apply (IH (k + 1)%Z _ k _ e' i' m' ltac:(lia) Hfold j q Hq). lia.
      * apply (IH (k + 1)%Z _ i _ e' i' m' ltac:(lia) Hfold j q Hq). lia.
Qed.

(** The second loop does the same among the points other than
    [index1]. *)
Lemma offLine_fold_first (p0 e1 : vector R) (index1 : Z) (l : list (vector R)) :
  forall (k i : Z) (m : R) (i' : Z) (m' : R),
    (i < k)%Z ->
    fold_left (offLine_step (inj p0) (inj e1) index1) (enum_from k (map inj l))
              (i, Some m)
    = (i', Some m') ->
    forall j q, nth_error l j = Some q -> (k + Z.of_nat j < i')%Z ->
                (k + Z.of_nat j)%Z <> index1 ->
                (off p0 e1 q < m')%R.
Proof.
  induction l as [| p l IH]; intros k i m i' m' Hik Hfold j q Hq Hj Hne.
  - destruct j; discriminate.
  - cbn [map enum_from fold_left] in Hfold. rewrite offLine_step_inj in Hfold.
    destruct j as [| j].
    + injection Hq as ->.
      destruct (Z.eqb_spec k index1) as [Ek | Ek]; [lia |].
      destruct (Rgtb_cases (off p0 e1 q) m) as [[E Hd] | [E Hd]]; rewrite E in Hfold.
      * destruct (offLine_fold p0 e1 index1 l (k + 1) k (off p0 e1 q))
          as (i2 & m2 & Hf2 & [(Hi & _ & _) | (jx & px & _ & _ & _ & Hm & Hlt & _)]);
          rewrite Hf2 in Hfold; injection Hfold as Ei Em; subst; [lia | lra].
      * destruct (offLine_fold p0 e1 index1 l (k + 1) i m)
          as (i2 & m2 & Hf2 & [(Hi & _ & _) | (jx & px & _ & _ & _ & Hm & Hlt & _)]);
          rewrite Hf2 in Hfold; injection Hfold as Ei Em; subst; [lia | lra].
    + simpl in Hq.
      destruct (k =? index1)%Z.
      * apply (IH (k + 1)%Z i _ i' m' ltac:(lia) Hfold j q Hq); lia.
      * destruct (Rgtb (off p0 e1 p) m).
        -- apply (IH (k + 1)%Z k _ i' m' ltac:(lia) Hfold j q Hq); lia.
        -- apply (IH (k + 1)%Z i _ i' m' ltac:(lia) Hfold j q Hq); lia.
Qed.

(** X10.  In exact arithmetic, for three points or more of which one is
    not at [P[0]], ties are settled by the order of the points: of the
    points furthest from [P[0]] the first loop takes the one of lowest
    index, and of the points other than it whose offset from [P[0]],
    without its component along [e1], is longest, the second loop takes the
    one of lowest index; [P[0]] itself is never taken, and the two indices
    differ. *)
Theorem calcCoordinateSystem_lowest_index (G : R) (P : list (vector R)) :
  (0 < G)%R ->
  (3 <= length P)%nat ->
  spread P ->
  exists p0 e1 i1 m1 i2 m2 p1 p2,
    at_label P 0 = Some p0
    /\ furthest_loop (Some G) (inj p0) (map inj P) = (Some (inj e1), i1, m1)
    /\ offLine_loop (Some G) (inj p0) (inj e1) i1 (map inj P) = (i2, m2)
    /\ (1 <= i1)%Z /\ (1 <= i2)%Z /\ i1 <> i2
    /\ at_label P i1 = Some p1
    /\ at_label P i2 = Some p2
    /\ magSqr e1 = 1%R
    /\ vsub p1 p0 = vscale (dist p0 p1) e1
    /\ (forall q, In q P -> (dist p0 q <= dist p0 p1)%R)
    /\ (forall j q, (1 <= j < i1)%Z -> at_label P j = Some q ->
          (dist p0 q < dist p0 p1)%R)
    /\ (forall j q, at_label P j = Some q -> j <> i1 ->
          (mag (without_component (vsub q p0) e1)
           <= mag (without_component (vsub p2 p0) e1))%R)
    /\ (forall j q, (1 <= j < i2)%Z -> j <> i1 -> at_label P j = Some q ->
          (mag (without_component (vsub q p0) e1)
           < mag (without_component (vsub p2 p0) e1))%R).
Proof.
  intros HG Hlen Hsp.
  destruct (three_points P Hlen) as (p0 & rest & -> & Hrest).
  destruct (calcCoordinateSystem_spec p0 rest HG Hrest)
    as (j1 & p1 & Hj1 & Hfar & Hloop1
        & [[Hz _] | (Hd & j2 & p2 & Hj2 & Hne & Hoff & Hloop2 & Hcs)]).
  - pose proof (@spread_dist p0 p1 rest Hsp Hfar). lra.
  - rewrite vdivs_inj in Hloop1 by lra.
    set (e1 := vdivs (vsub p1 p0) (dist p0 p1)) in *.
    exists p0, e1, (1 + Z.of_nat j1)%Z, (Some (dist p0 p1)),
           (1 + Z.of_nat j2)%Z, (Some (off p0 e1 p2)), p1, p2.
    split; [reflexivity |]. split; [exact Hloop1 |]. split; [exact Hloop2 |].
    split; [lia |]. split; [lia |]. split; [lia |].
    split; [rewrite at_label_cons; exact Hj1 |].
    split; [rewrite at_label_cons; exact Hj2 |].
    split; [apply magSqr_vdivs_mag; exact Hd |].
    split; [apply vsub_scale_dist; lra |].
    split; [| split; [| split]].
    + intros q [<- | Hq]; [rewrite dist_self; lra | now apply Hfar].
    + intros j q Hj Hq.
      destruct (@at_label_cons_cases _ _ _ _ _ Hq) as [[-> _] | (k & -> & Hk)]; [lia |].
      apply (@furthest_fold_first p0 rest 1 None (-1) (- G)
               (Some (inj e1)) (1 + Z.of_nat j1) (dist p0 p1) ltac:(lia) Hloop1 k q Hk).
      lia.
    + intros j q Hq Hj. rewrite <- !off_without_component.
      pose proof (off_nonneg p0 e1 p2).
      destruct (@at_label_cons_cases _ _ _ _ _ Hq) as [[-> ->] | (k & -> & Hk)].
      * rewrite off_self. lra.
      * apply (Hoff k); [exact Hk | lia].
    + intros j q Hj Hji Hq. rewrite <- !off_without_component.
      destruct (@at_label_cons_cases _ _ _ _ _ Hq) as [[-> _] | (k & -> & Hk)]; [lia |].
      apply (@offLine_fold_first p0 e1 (1 + Z.of_nat j1) rest 1 (-1) (- G)
               (1 + Z.of_nat j2) (off p0 e1 p2) ltac:(lia) Hloop2 k q Hk); lia.
Qed.

Lemma calcCoordinateSystem_lowest_index_witness :
  exists p0 e1 i1 m1 i2 m2 p1 p2,
    at_label square_points 0 = Some p0
    /\ furthest_loop (Some GREAT_double) (inj p0) (map inj square_points)
       = (Some (inj e1), i1, m1)
    /\ offLine_loop (Some GREAT_double) (inj p0) (inj e1) i1 (map inj square_points)
       = (i2, m2)
    /\ (1 <= i1)%Z /\ (1 <= i2)%Z /\ i1 <> i2
    /\ at_label square_points i1 = Some p1
    /\ at_label square_points i2 = Some p2
    /\ magSqr e1 = 1%R
    /\ vsub p1 p0 = vscale (dist p0 p1) e1
    /\ (forall q, In q square_points -> (dist p0 q <= dist p0 p1)%R)
    /\ (forall j q, (1 <= j < i1)%Z -> at_label square_points j = Some q ->
          (dist p0 q < dist p0 p1)%R)
    /\ (forall j q, at_label square_points j = Some q -> j <> i1 ->
          (mag (without_component (vsub q p0) e1)
           <= mag (without_component (vsub p2 p0) e1))%R)
    /\ (forall j q, (1 <= j < i2)%Z -> j <> i1 -> at_label square_points j = Some q ->
          (mag (without_component (vsub q p0) e1)
           < mag (without_component (vsub p2 p0) e1))%R).
Proof.
  apply (@calcCoordinateSystem_lowest_index GREAT_double square_points).
  - unfold GREAT_double. lra.
  - simpl. lia.
  - exists (mkVector 1 0 0)%R. split; [simpl; auto |].
    intros E. injection E as E. lra.
Defined.

(** ** calcCoordinateSystem: an undefined first point *)

Lemma mag_vsub_undefined (p p0 : vector XR) :
  vx p0 = None \/ vy p0 = None \/ vz p0 = None ->
  mag (vsub p p0) = None.
Proof.
  destruct p0 as [[x0 |] [y0 |] [z0 |]], p as [[x |] [y |] [z |]];
    simpl; intros [H | [H | H]]; try discriminate H; reflexivity.
Qed.

Lemma furthest_fold_undefined (p0 : vector XR) (l : list (vector XR)) :
  vx p0 = None \/ vy p0 = None \/ vz p0 = None ->
  forall (k : Z) (st : option (vector XR) * Z * XR),
    fold_left (furthest_step p0) (enum_from k l) st = st.
Proof.
  intros H0. induction l as [| p l IH]; intros k st; [reflexivity |].
  cbn [enum_from fold_left].
  replace (furthest_step p0 st (k, p)) with st; [apply IH |].
  unfold furthest_step. destruct st as [[e i] m].
  rewrite (@mag_vsub_undefined p p0 H0). reflexivity.
Qed.

(** With an undefined coordinate in [p0], the vector the second loop
    measures has no defined length, whatever [e1] holds. *)
Lemma mag_offLine_undefined (p0 e1 p : vector XR) :
  vx p0 = None \/ vy p0 = None \/ vz p0 = None ->
  mag (offLine p0 e1 p) = None.
Proof.
  intros H.
  destruct p0 as [x0 y0 z0], p as [x y z], e1 as [a b c].
  cbn [vx vy vz] in H.
  destruct H as [-> | [-> | ->]];
    destruct x as [x |], y as [y |], z as [z |];
    try destruct x0 as [x0 |]; try destruct y0 as [y0 |];
    try destruct z0 as [z0 |];
    destruct a as [a |], b as [b |], c as [c |]; reflexivity.
Qed.

Lemma offLine_fold_undefined (p0 e1 : vector XR) (index1 : Z) (l : list (vector XR)) :
  vx p0 = None \/ vy p0 = None \/ vz p0 = None ->
  forall (k : Z) (st : Z * XR),
    fold_left (offLine_step p0 e1 index1) (enum_from k l) st = st.
Proof.
  intros H0. induction l as [| p l IH]; intros k st; [reflexivity |].
  cbn [enum_from fold_left].
  replace (offLine_step p0 e1 index1 st (k, p)) with st; [apply IH |].
  unfold offLine_step. destruct st as [i m].
  destruct (negb (k =? index1)%Z); [| reflexivity].
  rewrite (@mag_offLine_undefined p0 e1 p H0). reflexivity.
Qed.

(** From its second loop on, [calcCoordinateSystem] is [secondLoop_on] of
    what the first loop has left, when the first loop has assigned. *)
Lemma calcCoordinateSystem_secondLoop (S : Type) (ops : ScalarOps S) (GREAT : S)
    (points : list (vector S)) (p0 e1 p1 : vector S) (index1 : Z) (m : S) :
  (3 <= length points)%nat ->
  at_label points 0 = Some p0 ->
  furthest_loop GREAT p0 points = (Some e1, index1, m) ->
  at_label points index1 = Some p1 ->
  calcCoordinateSystem GREAT points = secondLoop_on GREAT p0 e1 index1 points.
Proof.
  intros Hlen H0 Hloop H1. unfold calcCoordinateSystem, secondLoop_on, size.
  destruct (Z.ltb_spec (Z.of_nat (length points)) 3) as [H | H]; [lia |].
  rewrite H0, Hloop, H1. reflexivity.
Qed.

(** X11.  When a coordinate of [P[0]] is undefined (NaN), no comparison of
    the first loop holds: [index1] is still [-1] after it and [e1] has
    been given no value.  Whatever [e1] then holds, no comparison of the
    second loop holds either: [index2] is still [-1] and the code from the
    second loop on ends in the "Cannot find points that make valid normal"
    error. *)
Theorem calcCoordinateSystem_undefined_origin (GREAT : XR)
    (P : list (vector XR)) (p0 : vector XR) :
  at_label P 0 = Some p0 ->
  vx p0 = None \/ vy p0 = None \/ vz p0 = None ->
  furthest_loop GREAT p0 P = (None, (-1)%Z, sneg GREAT)
  /\ (forall e1 : vector XR,
        offLine_loop GREAT p0 e1 (-1) P = ((-1)%Z, sneg GREAT)
        /\ secondLoop_on GREAT p0 e1 (-1) P = FatalError DegenerateGeometryError).
Proof.
  intros H0 Hnan.
  split; [apply furthest_fold_undefined; exact Hnan |].
  intros e1.
  assert (Hloop : offLine_loop GREAT p0 e1 (-1) P = ((-1)%Z, sneg GREAT))
    by (apply offLine_fold_undefined; exact Hnan).
  split; [exact Hloop |].
  unfold secondLoop_on. rewrite Hloop. reflexivity.
Qed.

Lemma calcCoordinateSystem_undefined_origin_witness :
  furthest_loop (Some GREAT_double) (mkVector None (Some 0%R) (Some 0%R))
    undefined_origin_points
  = (None, (-1)%Z, sneg (Some GREAT_double))
  /\ (forall e1 : vector XR,
        offLine_loop (Some GREAT_double) (mkVector None (Some 0%R) (Some 0%R)) e1
          (-1) undefined_origin_points
        = ((-1)%Z, sneg (Some GREAT_double))
        /\ secondLoop_on (Some GREAT_double) (mkVector None (Some 0%R) (Some 0%R)) e1
             (-1) undefined_origin_points
           = FatalError DegenerateGeometryError).
Proof.
  apply (@calcCoordinateSystem_undefined_origin (Some GREAT_double)
           undefined_origin_points (mkVector None (Some 0%R) (Some 0%R))).
  - reflexivity.
  - left. reflexivity.
Defined.

(** The same in binary64, with NaN as the x coordinate of the first
    point, for three contents of [e1]: null, of ordinary size, and with an
    infinite coordinate. *)
Lemma secondLoop_on_nan_origin_float :
  furthest_loop (ops := Fops) GREAT_float (mkVector nan 0 0)%float
    nan_origin_points_float
  = (None, (-1)%Z, (-1e15)%float)
  /\ secondLoop_on (ops := Fops) GREAT_float (mkVector nan 0 0)%float
       (mkVector 0 0 0)%float (-1) nan_origin_points_float
     = FatalError DegenerateGeometryError
  /\ secondLoop_on (ops := Fops) GREAT_float (mkVector nan 0 0)%float
       (mkVector 3 (-2) 7)%float (-1) nan_origin_points_float
     = FatalError DegenerateGeometryError
  /\ secondLoop_on (ops := Fops) GREAT_float (mkVector nan 0 0)%float
       (mkVector infinity 0 1)%float (-1) nan_origin_points_float
     = FatalError DegenerateGeometryError.
Proof. repeat split; vm_compute; reflexivity. Qed.

(** ** calcWeights: the perturbation *)

Lemma perturbVertices_length (S : Type) (ops : ScalarOps S) (env : Collaborators S)
    (f : S) (a b mid : vector S) (l : list (vector S)) :
  forall rnd, length (fst (perturbVertices f a b mid l rnd)) = length l.
Proof.
  induction l as [| v l IH]; intros rnd; [reflexivity |].
  cbn [perturbVertices]. destruct (Random_position rnd a b) as [r rnd1].
  specialize (IH rnd1). destruct (perturbVertices f a b mid l rnd1) as [l' rnd2].
  simpl in *. now rewrite IH.
Qed.

Lemma perturbVertices_zero (env : Collaborators R) (a b mid : vector R)
    (l : list (vector R)) :
  forall rnd, fst (perturbVertices 0%R a b mid l rnd) = l.
Proof.
  induction l as [| v l IH]; intros rnd; [reflexivity |].
  cbn [perturbVertices]. destruct (Random_position rnd a b) as [r rnd1].
  specialize (IH rnd1). destruct (perturbVertices 0%R a b mid l rnd1) as [l' rnd2].
  simpl in *. rewrite IH. f_equal.
  destruct v, r, mid. vec_unfold. simpl. f_equal; ring.
Qed.

(** X12.  With a perturbation fraction of 0 the vertices are not moved,
    whatever the generator draws: the triangulation is made of the local
    positions of the source points themselves, and the weights are those
    of the destination points in it. *)
Theorem calcWeights_no_perturbation (env : Collaborators R)
    (cs : coordinateSystem R) (src dst : list (vector R)) (g : rndState) :
  fst (perturbedVertices 0%R cs src g) = localPosition cs src
  /\ fst (calcWeights 0%R cs src dst g)
     = calcInterpolationWeights
         (delaunay2D (map (@to2D R) (localPosition cs src)))
         (localPosition cs dst).
Proof.
  assert (H : fst (perturbedVertices 0%R cs src g) = localPosition cs src)
    by (unfold perturbedVertices; apply perturbVertices_zero).
  split; [exact H |]. unfold calcWeights.
  destruct (perturbedVertices 0%R cs src g) as [verts g']. simpl in *.
  rewrite H. reflexivity.
Qed.

Lemma scaled_offset_bound (f a b m r : R) :
  (a <= r <= b)%R -> (m = (a + b) / 2)%R ->
  (Rabs (f * (r - m)) <= Rabs f * ((b - a) / 2))%R.
Proof.
  intros Hr Hm. rewrite Rabs_mult.
  apply Rmult_le_compat_l; [apply Rabs_pos |].
  apply Rabs_le. lra.
Qed.

Lemma perturbVertices_bound (env : Collaborators R) (f : R) (a b mid : vector R)
    (l : list (vector R)) :
  midway a b mid ->
  (forall rnd r rnd', Random_position rnd a b = (r, rnd') -> vle a r /\ vle r b) ->
  forall rnd i v v',
    nth_error l i = Some v ->
    nth_error (fst (perturbVertices f a b mid l rnd)) i = Some v' ->
    moved_within f a b v v'.
Proof.
  intros (Hmx & Hmy & Hmz) Hdraw.
  induction l as [| u l IH]; intros rnd i v v' Hv Hv'.
  - destruct i; discriminate.
  - cbn [perturbVertices] in Hv'.
    destruct (Random_position rnd a b) as [r rnd1] eqn:Er.
    destruct (Hdraw rnd r rnd1 Er) as [(Hax & Hay & Haz) (Hbx & Hby & Hbz)].
    destruct (perturbVertices f a b mid l rnd1) as [l' rnd2] eqn:El.
    destruct i as [| i]; simpl in Hv, Hv'.
    + injection Hv as <-. injection Hv' as <-.
      destruct u as [ux uy uz], r as [rx ry rz], mid as [mx my mz].
      unfold moved_within. vec_unfold. simpl in *.
      replace (ux + f * (rx - mx) - ux)%R with (f * (rx - mx))%R by ring.
      replace (uy + f * (ry - my) - uy)%R with (f * (ry - my))%R by ring.
      replace (uz + f * (rz - mz) - uz)%R with (f * (rz - mz))%R by ring.
      repeat split; apply scaled_offset_bound; auto.
    + apply (IH rnd1 i v v' Hv). rewrite El. exact Hv'.
Qed.

(** X13.  The perturbation keeps the number of vertices and moves each of
    them, in every coordinate, by at most the fraction [perturb] of half
    the extent of the bounding box, provided the midpoint the box gives is
    midway between its corners and the generator draws its positions
    between the two corners it is given. *)
Theorem perturbedVertices_within_box (env : Collaborators R) (perturb : R)
    (cs : coordinateSystem R) (src : list (vector R)) (g : rndState) :
  midway (boundBox_min (localPosition cs src)) (boundBox_max (localPosition cs src))
         (boundBox_midpoint (localPosition cs src)) ->
  (forall rnd r rnd',
      Random_position rnd (boundBox_min (localPosition cs src))
                      (boundBox_max (localPosition cs src)) = (r, rnd') ->
      vle (boundBox_min (localPosition cs src)) r
      /\ vle r (boundBox_max (localPosition cs src))) ->
  length (fst (perturbedVertices perturb cs src g)) = length (localPosition cs src)
  /\ forall i v v',
       nth_error (localPosition cs src) i = Some v ->
       nth_error (fst (perturbedVertices perturb cs src g)) i = Some v' ->
       moved_within perturb (boundBox_min (localPosition cs src))
                    (boundBox_max (localPosition cs src)) v v'.
Proof.
  intros Hmid Hdraw. unfold perturbedVertices. split.
  - apply perturbVertices_length.
  - intros i v v' Hv Hv'.
    exact (@perturbVertices_bound env perturb _ _ _ _ Hmid Hdraw _ i v v' Hv Hv').
Qed.

Lemma perturbedVertices_within_box_witness :
  length (fst (perturbedVertices (env := sample_env) (1 / 10)%R sample_frame
                 plane_points 0%nat))
  = length (@localPosition R sample_env sample_frame plane_points)
  /\ forall i v v',
       nth_error (@localPosition R sample_env sample_frame plane_points) i
       = Some v ->
       nth_error (fst (perturbedVertices (env := sample_env) (1 / 10)%R sample_frame
                         plane_points 0%nat)) i = Some v' ->
       moved_within (1 / 10)%R
         (@boundBox_min R sample_env
            (@localPosition R sample_env sample_frame plane_points))
         (@boundBox_max R sample_env
            (@localPosition R sample_env sample_frame plane_points))
         v v'.
Proof.
  apply (@perturbedVertices_within_box sample_env (1 / 10)%R sample_frame
           plane_points 0%nat).
  - unfold midway. simpl. repeat split; lra.
  - intros rnd r rnd' H. simpl in H. injection H as <- _.
    unfold vle. simpl. repeat split; lra.
Defined.

(** ** findTime: the hint only saves work *)

(** X14.  On an ascending series the hint does not change the answer, as
    long as it is a lower bracket: for a hint [h2] whose entry is at most
    the query value and any hint [h1] from [-1] up to [h2], the calls with
    [h1] and with [h2] return the same. *)
Theorem findTime_any_lower_hint (times : list (instant R)) (h1 h2 : Z) (v : R)
    (t2 : instant R) :
  ascending times ->
  (-1 <= h1 <= h2)%Z ->
  at_label times h2 = Some t2 ->
  (value t2 <= v)%R ->
  findTime times h1 v = findTime times h2 v.
Proof.
  intros Hasc Hh Ht2 Hv2.
  assert (Hex1 : exists i t, (h1 <= i)%Z /\ at_label times i = Some t /\ (value t <= v)%R)
    by (exists h2, t2; repeat split; [lia | exact Ht2 | exact Hv2]).
  assert (Hex2 : exists i t, (h2 <= i)%Z /\ at_label times i = Some t /\ (value t <= v)%R)
    by (exists h2, t2; repeat split; [lia | exact Ht2 | exact Hv2]).
  destruct (@findTime_bracket times h1 v Hasc ltac:(lia) Hex1)
    as (lo1 & hi1 & tl1 & E1 & Hge1 & Hat1 & Hle1 & Hmax1 & Hhi1 & Hlast1).
  destruct (@findTime_bracket times h2 v Hasc ltac:(lia) Hex2)
    as (lo2 & hi2 & tl2 & E2 & Hge2 & Hat2 & Hle2 & Hmax2 & Hhi2 & Hlast2).
  assert (H21 : (lo2 <= lo1)%Z) by (apply (Hmax1 lo2 tl2); [lia | exact Hat2 | exact Hle2]).
  assert (H12 : (lo1 <= lo2)%Z) by (apply (Hmax2 lo1 tl1); [lia | exact Hat1 | exact Hle1]).
  assert (Elo : lo1 = lo2) by lia. subst lo2.
  pose proof (at_label_Some _ _ Hat1) as [Hr _].
  assert (Ehi : hi1 = hi2).
  { destruct (Z_lt_le_dec lo1 (size times - 1)) as [Hlt | Hge].
    - rewrite (Hhi1 Hlt), (Hhi2 Hlt). reflexivity.
    - assert (El : lo1 = (size times - 1)%Z) by lia.
      rewrite (Hlast1 El), (Hlast2 El). reflexivity. }
  rewrite E1, E2, Ehi. reflexivity.
Qed.

Lemma findTime_any_lower_hint_witness :
  findTime sample_times (-1) 3%R = findTime sample_times 1 3%R.
Proof.
  apply (@findTime_any_lower_hint sample_times (-1)%Z 1%Z 3%R
           (mkInstant 1%R String.EmptyString)).
  - unfold ascending. simpl. repeat constructor; lra.
  - lia.
  - reflexivity.
  - simpl. lra.
Defined.

(** ** calcCoordinateSystem: changing the unit of length *)

Lemma mag_vscale (s : R) (v : vector R) :
  (0 <= s)%R -> mag (vscale s v) = (s * mag v)%R.
Proof.
  intros Hs. unfold mag.
  replace (magSqr (vscale s v)) with ((s * s) * magSqr v)%R
    by (destruct v; vec_unfold; simpl; ring).
  change (R_sqrt.sqrt (s * s * magSqr v) = (s * R_sqrt.sqrt (magSqr v))%R).
  rewrite sqrt_mult; [| nra | apply magSqr_nonneg].
  rewrite sqrt_square by exact Hs. reflexivity.
Qed.

Lemma vsub_vscale (s : R) (p q : vector R) :
  vsub (vscale s p) (vscale s q) = vscale s (vsub p q).
Proof. destruct p, q. vec_unfold. simpl. f_equal; ring. Qed.

Lemma dist_scale (s : R) (p0 p : vector R) :
  (0 <= s)%R -> dist (vscale s p0) (vscale s p) = (s * dist p0 p)%R.
Proof. intros Hs. unfold dist. rewrite vsub_vscale. now apply mag_vscale. Qed.

Lemma off_scale (s : R) (p0 e1 p : vector R) :
  (0 <= s)%R -> off (vscale s p0) e1 (vscale s p) = (s * off p0 e1 p)%R.
Proof.
  intros Hs. unfold off.
  replace (offLine (vscale s p0) e1 (vscale s p)) with (vscale s (offLine p0 e1 p))
    by (destruct p0, e1, p; vec_unfold; simpl; f_equal; ring).
  now apply mag_vscale.
Qed.

Lemma vdivs_scale (s m : R) (v : vector R) :
  (0 < s)%R -> (0 < m)%R -> vdivs (vscale s v) (s * m)%R = vdivs v m.
Proof.
  intros Hs Hm. destruct v. vec_unfold. simpl. f_equal; field; lra.
Qed.

Lemma cross_vscale_right (s : R) (e w : vector R) :
  cross e (vscale s w) = vscale s (cross e w).
Proof. destruct e, w. vec_unfold. simpl. f_equal; ring. Qed.

Lemma normalised_scale (s : R) (n : vector R) :
  (0 < s)%R -> normalised (inj (vscale s n)) = normalised (inj n).
Proof.
  intros Hs. pose proof (mag_nonneg n) as Hn.
  destruct (Req_dec_T (mag n) 0) as [Hz | Hnz].
  - rewrite (normalised_inj_zero n Hz).
    apply normalised_inj_zero. rewrite mag_vscale by lra. rewrite Hz. ring.
  - rewrite (normalised_inj n Hnz), normalised_inj.
    + rewrite mag_vscale by lra. rewrite vdivs_scale by lra. reflexivity.
    + rewrite mag_vscale by lra. nra.
Qed.

Lemma nth_error_scale (s : R) (l : list (vector R)) (k : nat) (q : vector R) :
  nth_error (scale s l) k = Some q ->
  exists p, nth_error l k = Some p /\ q = vscale s p.
Proof.
  unfold scale. rewrite nth_error_map.
  destruct (nth_error l k) as [p |]; simpl; [| discriminate].
  intros H. injection H as <-. now exists p.
Qed.

(** X15.  Changing the unit of length changes nothing but the origin:
    scaling all points by one positive factor scales the origin of the
    frame by that factor and changes neither its axis nor its normal, nor
    the error the function ends in. *)
Theorem calcCoordinateSystem_scale (G s : R) (P : list (vector R)) :
  (0 < G)%R ->
  (0 < s)%R ->
  calcCoordinateSystem (Some G) (map inj (scale s P))
  = match calcCoordinateSystem (Some G) (map inj P) with
    | Ok cs => Ok (mkCoordinateSystem (vscale (Some s) (origin cs)) (normal cs) (axis cs))
    | FatalError e => FatalError e
    | Undefined => Undefined
    end.
Proof.
  intros HG Hs.
  destruct (Nat.lt_ge_cases (length P) 3) as [Hshort | Hlen].
  - rewrite !calcCoordinateSystem_short; [reflexivity | |];
      unfold scale; rewrite ?length_map; exact Hshort.
  - destruct (three_points P Hlen) as (p0 & rest & -> & Hrest).
    assert (Hrest' : (2 <= length (scale s rest))%nat)
      by (unfold scale; rewrite length_map; exact Hrest).
    change (scale s (p0 :: rest)) with (vscale s p0 :: scale s rest).
    destruct (calcCoordinateSystem_spec p0 rest HG Hrest)
      as (j1 & p1 & Hj1 & Hfar & Hloop1 & Hcases).
    destruct (calcCoordinateSystem_spec (vscale s p0) (scale s rest) HG Hrest')
      as (k1 & q1 & Hk1 & Hfar' & Hloop1' & Hcases').
    destruct (nth_error_scale _ _ _ Hk1) as (pk & Hpk & ->).
    assert (Hin1 : In (vscale s p1) (scale s rest))
      by (unfold scale; apply in_map; eapply nth_error_In; exact Hj1).
    assert (Hink : In pk rest) by (eapply nth_error_In; exact Hpk).
    (* both runs stop on the same point *)
    assert (Ek : k1 = j1).
    { destruct (Nat.lt_trichotomy j1 k1) as [Hlt | [E | Hgt]]; [| now symmetry |].
      - exfalso.
        assert (Hq : nth_error (scale s rest) j1 = Some (vscale s p1))
          by (unfold scale; now apply map_nth_error).
        pose proof (@furthest_fold_first (vscale s p0) (scale s rest) 1 None (-1) (- G)
                      _ _ _ ltac:(lia) Hloop1' j1 _ Hq ltac:(lia)) as Hfirst.
        rewrite !dist_scale in Hfirst by lra.
        specialize (Hfar pk Hink). nra.
      - exfalso.
        pose proof (@furthest_fold_first p0 rest 1 None (-1) (- G)
                      _ _ _ ltac:(lia) Hloop1 k1 _ Hpk ltac:(lia)) as Hfirst.
        specialize (Hfar' _ Hin1). rewrite !dist_scale in Hfar' by lra. nra. }
    subst k1. rewrite Hpk in Hj1. injection Hj1 as ->.
    rewrite dist_scale in Hcases', Hloop1' by lra.
    pose proof (dist_nonneg p0 p1) as Hnn.
    destruct Hcases as [[Hz Hcs] | (Hd & j2 & p2 & Hj2 & Hne & Hoff & Hloop2 & Hcs)].
    + (* all points at [P[0]] *)
      destruct Hcases' as [[_ Hcs'] | (Hd' & _)]; [| rewrite Hz in Hd'; lra].
      rewrite Hcs, Hcs'. reflexivity.
    + destruct Hcases' as [[Hz' _] | (_ & k2 & q2 & Hk2 & Hne' & Hoff' & Hloop2' & Hcs')];
        [nra |].
      rewrite vsub_vscale, vdivs_scale in Hoff', Hloop2', Hcs' by lra.
      set (e1 := vdivs (vsub p1 p0) (dist p0 p1)) in *.
      destruct (nth_error_scale _ _ _ Hk2) as (pk2 & Hpk2 & ->).
      assert (Ek : k2 = j2).
      { destruct (Nat.lt_trichotomy j2 k2) as [Hlt | [E | Hgt]]; [| now symmetry |].
        - exfalso.
          assert (Hq : nth_error (scale s rest) j2 = Some (vscale s p2))
            by (unfold scale; now apply map_nth_error).
          pose proof (@offLine_fold_first (vscale s p0) e1 (1 + Z.of_nat j1)
                        (scale s rest) 1 (-1) (- G) _ _ ltac:(lia) Hloop2'
                        j2 _ Hq ltac:(lia) ltac:(lia)) as Hfirst.
          rewrite !off_scale in Hfirst by lra.
          specialize (Hoff k2 pk2 Hpk2 Hne'). nra.
        - exfalso.
          pose proof (@offLine_fold_first p0 e1 (1 + Z.of_nat j1) rest 1 (-1) (- G)
                        _ _ ltac:(lia) Hloop2 k2 _ Hpk2 ltac:(lia) ltac:(lia)) as Hfirst.
          assert (Hq : nth_error (scale s rest) j2 = Some (vscale s p2))
            by (unfold scale; now apply map_nth_error).
          specialize (Hoff' j2 _ Hq Hne). rewrite !off_scale in Hoff' by lra. nra. }
      subst k2. rewrite Hpk2 in Hj2. injection Hj2 as ->.
      rewrite Hcs, Hcs'. f_equal.
      rewrite vsub_vscale, !cross_inj, cross_vscale_right, normalised_scale by lra.
      reflexivity.
Qed.

Lemma calcCoordinateSystem_scale_witness :
  calcCoordinateSystem (Some GREAT_double) (map inj (scale 1000 square_points))
  = match calcCoordinateSystem (Some GREAT_double) (map inj square_points) with
    | Ok cs =>
        Ok (mkCoordinateSystem (vscale (Some 1000%R) (origin cs)) (normal cs) (axis cs))
    | FatalError e => FatalError e
    | Undefined => Undefined
    end.
Proof.
  apply (@calcCoordinateSystem_scale GREAT_double 1000%R square_points).
  - unfold GREAT_double. lra.
  - lra.
Defined.
